(** * particle: generation of partial (map-backed) types from Go structs

    A shallow embedding of [generator.go] (package [particle]) and of the
    [generate] function of the command line driver, together with the parts of
    the Go libraries the generator calls: [strings], [unicode/utf8],
    [strconv], [reflect], [go/ast] and [github.com/dave/jennifer/jen].

    Go strings are byte strings; they are modelled by [string] (a list of
    [ascii], one per byte).  A Go [panic] is modelled by the [Panic] result:
    the generator never recovers, so a panic aborts the whole generation. *)

From Stdlib Require Import String Ascii List ZArith NArith Bool Lia.
Import ListNotations.

Set Warnings "-register-all".

Local Open Scope string_scope.
Local Open Scope list_scope.

(** The double quote and the backslash, by their codes. *)
Definition dquote : ascii := "034"%char.
Definition bslash : ascii := "092"%char.

(** ** Package [strings] *)

Module strings.

(** [strings.ContainsRune] for a one-byte rune. *)
Fixpoint contains (cutset : string) (c : ascii) : bool :=
  match cutset with
  | EmptyString => false
  | String d cutset' => Ascii.eqb c d || contains cutset' c
  end.

Fixpoint TrimLeft (s cutset : string) : string :=
  match s with
  | EmptyString => EmptyString
  | String c s' => if contains cutset c then TrimLeft s' cutset else s
  end.

Fixpoint TrimRight (s cutset : string) : string :=
  match s with
  | EmptyString => EmptyString
  | String c s' =>
      match TrimRight s' cutset with
      | EmptyString => if contains cutset c then EmptyString else String c EmptyString
      | r => String c r
      end
  end.

(** [strings.Trim(s, cutset)]: [s] without the leading and trailing bytes
    that occur in [cutset] (the cutsets used here are ASCII). *)
Definition Trim (s cutset : string) : string :=
  TrimRight (TrimLeft s cutset) cutset.

(** [strings.Split(s, sep)] for a one-byte separator.  The result always
    has at least one element. *)
Fixpoint Split (s : string) (sep : ascii) : list string :=
  match s with
  | EmptyString => [EmptyString]
  | String c s' =>
      if Ascii.eqb c sep then EmptyString :: Split s' sep
      else match Split s' sep with
           | h :: t => String c h :: t
           | [] => [String c EmptyString]
           end
  end.

(** [strings.Index(s, sep)] for a one-byte [sep]: the index of its first
    occurrence in [s], or [-1]. *)
Fixpoint Index (s : string) (sep : ascii) : Z :=
  match s with
  | EmptyString => (-1)%Z
  | String c s' =>
      if Ascii.eqb c sep then 0%Z
      else let i := Index s' sep in
           if (i =? -1)%Z then (-1)%Z else (i + 1)%Z
  end.

(** The slice expression [s[:i]]. *)
Definition slice_to (s : string) (i : Z) : string :=
  substring 0 (Z.to_nat i) s.

End strings.

(** ** Package [unicode/utf8] *)

Module utf8.

Definition RuneError : N := 65533.
Definition MaxRune : N := 1114111.

(** The byte [s[i]] as a number. *)
Definition byteAt (s : string) (i : nat) : N :=
  match String.get i s with
  | Some c => N_of_ascii c
  | None => 0%N
  end.

(** [utf8.DecodeRuneInString]: the rune at the head of [s] and its width;
    [(RuneError, 1)] for an invalid encoding, [(RuneError, 0)] for the empty
    string. *)
Definition DecodeRuneInString (s : string) : N * nat :=
  match s with
  | EmptyString => (RuneError, 0)
  | String c0 _ =>
      let s0 := N_of_ascii c0 in
      if (s0 <? 128)%N then (s0, 1)
      else if (s0 <? 194)%N || (244 <? s0)%N then (RuneError, 1)
      else
        let sz := if (s0 <? 224)%N then 2 else if (s0 <? 240)%N then 3 else 4 in
        let lo := if (s0 =? 224)%N then 160%N else if (s0 =? 240)%N then 144%N else 128%N in
        let hi := if (s0 =? 237)%N then 159%N else if (s0 =? 244)%N then 143%N else 191%N in
        if Nat.ltb (String.length s) sz then (RuneError, 1)
        else
          let s1 := byteAt s 1 in
          if (s1 <? lo)%N || (hi <? s1)%N then (RuneError, 1)
          else if Nat.leb sz 2 then
            (N.lor (N.shiftl (N.land s0 31) 6) (N.land s1 63), 2)
          else
            let s2 := byteAt s 2 in
            if (s2 <? 128)%N || (191 <? s2)%N then (RuneError, 1)
            else if Nat.leb sz 3 then
              (N.lor (N.shiftl (N.land s0 15) 12)
                 (N.lor (N.shiftl (N.land s1 63) 6) (N.land s2 63)), 3)
            else
              let s3 := byteAt s 3 in
              if (s3 <? 128)%N || (191 <? s3)%N then (RuneError, 1)
              else
                (N.lor (N.shiftl (N.land s0 7) 18)
                   (N.lor (N.shiftl (N.land s1 63) 12)
                      (N.lor (N.shiftl (N.land s2 63) 6) (N.land s3 63))), 4)
  end.

Fixpoint drop (n : nat) (s : string) : string :=
  match n, s with
  | S n', String _ s' => drop n' s'
  | _, _ => s
  end.

(** [utf8.ValidString]: no position of [s] decodes to [(RuneError, 1)]. *)
Fixpoint valid_loop (fuel : nat) (s : string) : bool :=
  match s with
  | EmptyString => true
  | String _ _ =>
      match fuel with
      | O => false
      | S fuel' =>
          let (r, size) := DecodeRuneInString s in
          if (r =? RuneError)%N && Nat.eqb size 1 then false
          else valid_loop fuel' (drop size s)
      end
  end.

Definition ValidString (s : string) : bool := valid_loop (String.length s) s.

(** [utf8.ValidRune]: no surrogate half, and at most [MaxRune]. *)
Definition ValidRune (r : N) : bool :=
  (r <? 55296)%N || ((57343 <? r)%N && (r <=? MaxRune)%N).

Definition byte (n : N) : ascii := ascii_of_N n.

(** [utf8.AppendRune] to the empty string. *)
Definition encode (r : N) : string :=
  if (r <=? 127)%N then String (byte r) EmptyString
  else if (r <=? 2047)%N then
    String (byte (N.lor 192 (N.shiftr r 6)))
      (String (byte (N.lor 128 (N.land r 63))) EmptyString)
  else
    let r3 := if (MaxRune <? r)%N || ((55296 <=? r)%N && (r <=? 57343)%N)
              then RuneError else r in
    if (r3 <=? 65535)%N then
      String (byte (N.lor 224 (N.shiftr r3 12)))
        (String (byte (N.lor 128 (N.land (N.shiftr r3 6) 63)))
           (String (byte (N.lor 128 (N.land r3 63))) EmptyString))
    else
      String (byte (N.lor 240 (N.shiftr r3 18)))
        (String (byte (N.lor 128 (N.land (N.shiftr r3 12) 63)))
           (String (byte (N.lor 128 (N.land (N.shiftr r3 6) 63)))
              (String (byte (N.lor 128 (N.land r3 63))) EmptyString))).

End utf8.

(** ** Package [strconv] *)

Module strconv.

(** The byte denoted by the one-letter escape [\c] inside a double-quoted
    string ([strconv.UnquoteChar] for the double quote). *)
Definition escape (c : ascii) : option ascii :=
  if Ascii.eqb c "a" then Some (ascii_of_nat 7)
  else if Ascii.eqb c "b" then Some (ascii_of_nat 8)
  else if Ascii.eqb c "f" then Some (ascii_of_nat 12)
  else if Ascii.eqb c "n" then Some (ascii_of_nat 10)
  else if Ascii.eqb c "r" then Some (ascii_of_nat 13)
  else if Ascii.eqb c "t" then Some (ascii_of_nat 9)
  else if Ascii.eqb c "v" then Some (ascii_of_nat 11)
  else if Ascii.eqb c bslash then Some bslash
  else if Ascii.eqb c dquote then Some dquote
  else None.

Definition squote : ascii := "039"%char.
Definition newline : ascii := "010"%char.
Definition creturn : ascii := "013"%char.

(** [unhex]: the value of a hexadecimal digit. *)
Definition unhex (c : ascii) : option N :=
  let b := N_of_ascii c in
  if (48 <=? b)%N && (b <=? 57)%N then Some (b - 48)%N
  else if (97 <=? b)%N && (b <=? 102)%N then Some (b - 97 + 10)%N
  else if (65 <=? b)%N && (b <=? 70)%N then Some (b - 65 + 10)%N
  else None.

(** [n] hexadecimal digits at the head of [s], added to [v], and what
    follows them. *)
Fixpoint hexDigits (n : nat) (s : string) (v : N) : option (N * string) :=
  match n with
  | O => Some (v, s)
  | S n' =>
      match s with
      | EmptyString => None
      | String c s' =>
          match unhex c with
          | Some x => hexDigits n' s' (N.lor (N.shiftl v 4) x)
          | None => None
          end
      end
  end.

(** Two more octal digits behind a first one of value [v]. *)
Definition octalDigits (s : string) (v : N) : option (N * string) :=
  match s with
  | String c1 (String c2 s') =>
      let x1 := N_of_ascii c1 in
      let x2 := N_of_ascii c2 in
      if (48 <=? x1)%N && (x1 <=? 55)%N && (48 <=? x2)%N && (x2 <=? 55)%N then
        let w := N.lor (N.shiftl (N.lor (N.shiftl v 3) (x1 - 48)) 3) (x2 - 48) in
        if (255 <? w)%N then None else Some (w, s')
      else None
  | _ => None
  end.

(** [strconv.UnquoteChar]: the first character of [s], whether it is a
    multibyte rune, and the rest of [s].  [None] is [ErrSyntax]. *)
Definition UnquoteChar (s : string) (quote : ascii) : option (N * bool * string) :=
  match s with
  | EmptyString => None
  | String c s1 =>
      if Ascii.eqb c quote && (Ascii.eqb quote squote || Ascii.eqb quote dquote) then None
      else if (128 <=? N_of_ascii c)%N then
        let (r, size) := utf8.DecodeRuneInString s in Some (r, true, utf8.drop size s)
      else if negb (Ascii.eqb c bslash) then Some (N_of_ascii c, false, s1)
      else
        match s1 with
        | EmptyString => None
        | String e s2 =>
            if Ascii.eqb e "x" then
              match hexDigits 2 s2 0 with
              | Some (v, tail) => Some (v, false, tail)
              | None => None
              end
            else if Ascii.eqb e "u" || Ascii.eqb e "U" then
              match hexDigits (if Ascii.eqb e "u" then 4 else 8) s2 0 with
              | Some (v, tail) =>
                  if utf8.ValidRune v then Some (v, true, tail) else None
              | None => None
              end
            else if (48 <=? N_of_ascii e)%N && (N_of_ascii e <=? 55)%N then
              match octalDigits s2 (N_of_ascii e - 48) with
              | Some (v, tail) => Some (v, false, tail)
              | None => None
              end
            else if Ascii.eqb e squote || Ascii.eqb e dquote then
              if Ascii.eqb e quote then Some (N_of_ascii e, false, s2) else None
            else
              match escape e with
              | Some b => Some (N_of_ascii b, false, s2)
              | None => None
              end
        end
  end.

Fixpoint indexByte (s : string) (c : ascii) : option nat :=
  match s with
  | EmptyString => None
  | String d s' =>
      if Ascii.eqb d c then Some 0
      else match indexByte s' c with
           | Some i => Some (S i)
           | None => None
           end
  end.

Fixpoint take (n : nat) (s : string) : string :=
  match n, s with
  | S n', String c s' => String c (take n' s')
  | _, _ => EmptyString
  end.

Fixpoint hasByte (s : string) (c : ascii) : bool :=
  match s with
  | EmptyString => false
  | String d s' => Ascii.eqb d c || hasByte s' c
  end.

Fixpoint removeByte (s : string) (c : ascii) : string :=
  match s with
  | EmptyString => EmptyString
  | String d s' => if Ascii.eqb d c then removeByte s' c else String d (removeByte s' c)
  end.

(** The loop of [unquote] over the characters behind the opening quote:
    the bytes they denote, and the input the loop stops at.  Every round
    takes bytes off [s], so [String.length s] rounds are enough. *)
Fixpoint unquote_chars (fuel : nat) (quote : ascii) (s : string)
  : option (string * string) :=
  match s with
  | EmptyString => Some (EmptyString, EmptyString)
  | String c _ =>
      if Ascii.eqb c quote then Some (EmptyString, s)
      else
        match fuel with
        | O => None
        | S fuel' =>
            match UnquoteChar s quote with
            | None => None
            | Some (r, multibyte, tail) =>
                if Ascii.eqb c newline then None
                else
                  let bytes := if (r <? 128)%N || negb multibyte
                               then String (utf8.byte r) EmptyString
                               else utf8.encode r in
                  if Ascii.eqb quote squote then Some (bytes, tail)
                  else
                    match unquote_chars fuel' quote tail with
                    | Some (buf, rest) => Some (bytes ++ buf, rest)%string
                    | None => None
                    end
            end
        end
  end.

(** [unquote(in, true)]: the value of the quoted literal at the head of
    [s], and what follows the literal. *)
Definition unquote (s : string) : option (string * string) :=
  match s with
  | EmptyString => None
  | String quote in1 =>
      match indexByte in1 quote with
      | None => None
      | Some e =>
          let body := take e in1 in
          let rem := utf8.drop (S e) in1 in
          if Ascii.eqb quote "`" then Some (removeByte body creturn, rem)
          else if Ascii.eqb quote dquote || Ascii.eqb quote squote then
            let valid :=
              if Ascii.eqb quote dquote then utf8.ValidString body
              else
                let (r, n) := utf8.DecodeRuneInString body in
                Nat.eqb n e && negb ((r =? utf8.RuneError)%N && Nat.eqb n 1) in
            if negb (hasByte body bslash) && negb (hasByte body newline) && valid
            then Some (body, rem)
            else
              match unquote_chars (String.length in1) quote in1 with
              | Some (buf, String c rest) =>
                  if Ascii.eqb c quote then Some (buf, rest) else None
              | _ => None
              end
          else None
      end
  end.

(** [strconv.Unquote]; [None] is [ErrSyntax]. *)
Definition Unquote (s : string) : option string :=
  match unquote s with
  | Some (out, EmptyString) => Some out
  | _ => None
  end.

End strconv.

(** ** Package [reflect]: struct tags *)

Module reflect.

(** The bytes allowed in a tag key: above the space, and none of the colon,
    the double quote and [0x7f]. *)
Definition key_byte (c : ascii) : bool :=
  (32 <? N_of_ascii c)%N && negb (Ascii.eqb c ":")
    && negb (Ascii.eqb c dquote) && negb (N_of_ascii c =? 127)%N.

Fixpoint skip_spaces (tag : string) : string :=
  match tag with
  | String c tag' => if Ascii.eqb c " " then skip_spaces tag' else tag
  | EmptyString => EmptyString
  end.

(** The scan to the colon: the longest prefix of key bytes, and the rest. *)
Fixpoint scan_key (tag : string) : string * string :=
  match tag with
  | EmptyString => (EmptyString, EmptyString)
  | String c tag' =>
      if key_byte c then let (k, r) := scan_key tag' in (String c k, r)
      else (EmptyString, tag)
  end.

(** The scan of the quoted value, started behind the opening quote: the
    bytes up to the closing quote (a backslash skips the byte that follows
    it), and what follows the closing quote.  [None] when the quote is
    never closed. *)
Fixpoint scan_quoted (tag : string) : option (string * string) :=
  match tag with
  | EmptyString => None
  | String c tag' =>
      if Ascii.eqb c dquote then Some (EmptyString, tag')
      else if Ascii.eqb c bslash then
        match tag' with
        | EmptyString => None
        | String d tag'' =>
            match scan_quoted tag'' with
            | Some (v, r) => Some (String c (String d v), r)
            | None => None
            end
        end
      else
        match scan_quoted tag' with
        | Some (v, r) => Some (String c v, r)
        | None => None
        end
  end.

(** The loop of [StructTag.Lookup]; every round consumes bytes of [tag], so
    [String.length tag] rounds are enough (see [Lookup_loop_fuel]). *)
Fixpoint Lookup_loop (fuel : nat) (tag key : string) : option string :=
  match fuel with
  | O => None
  | S fuel' =>
      match skip_spaces tag with
      | EmptyString => None
      | tag1 =>
          match scan_key tag1 with
          | (EmptyString, _) => None
          | (name, String colon (String quote tag2)) =>
              if Ascii.eqb colon ":" && Ascii.eqb quote dquote then
                match scan_quoted tag2 with
                | None => None
                | Some (v, tag3) =>
                    if String.eqb key name
                    then strconv.Unquote (String dquote (v ++ String dquote EmptyString))
                    else Lookup_loop fuel' tag3 key
                end
              else None
          | (_, _) => None
          end
      end
  end.

(** [StructTag.Lookup]; [None] is [ok = false]. *)
Definition Lookup (tag key : string) : option string :=
  Lookup_loop (String.length tag) tag key.

(** [StructTag.Get]. *)
Definition Get (tag key : string) : string :=
  match Lookup tag key with
  | Some v => v
  | None => EmptyString
  end.

End reflect.


(** ** Package [go/ast]: the syntax trees the generator reads *)

Module ast.

(** Type expressions ([ast.Expr]).  [Ident.Name], [BasicLit.Value] and the
    names of a field are kept as strings.  The first five constructors are
    the ones [determineType] translates; function literals are not
    modelled, so no type declaration occurs below an expression. *)
Inductive Expr : Type :=
| Ident (Name : string)
| SelectorExpr (X : Expr) (Sel : string)
| MapType (Key Value : Expr)
| ArrayType (Len : option Expr) (Elt : Expr)
| StarExpr (X : Expr)
| StructType (Fields : list Field)
| BasicLit (Value : string)
| InterfaceType
| FuncType
| ChanType (Value : Expr)
(** [ast.Field]: [Tag] is the [Value] of the tag literal, that is the
    literal as it is written in the source, with its quotes. *)
with Field : Type :=
| mkField (Names : list string) (Type_ : Expr) (Tag : option string).

Definition Names (f : Field) : list string :=
  match f with mkField names _ _ => names end.
Definition Type_ (f : Field) : Expr :=
  match f with mkField _ typ _ => typ end.
Definition Tag (f : Field) : option string :=
  match f with mkField _ _ tag => tag end.

(** What [%T] prints for an expression. *)
Definition type_name (e : Expr) : string :=
  match e with
  | Ident _ => "*ast.Ident"
  | SelectorExpr _ _ => "*ast.SelectorExpr"
  | MapType _ _ => "*ast.MapType"
  | ArrayType _ _ => "*ast.ArrayType"
  | StarExpr _ => "*ast.StarExpr"
  | StructType _ => "*ast.StructType"
  | BasicLit _ => "*ast.BasicLit"
  | InterfaceType => "*ast.InterfaceType"
  | FuncType => "*ast.FuncType"
  | ChanType _ => "*ast.ChanType"
  end.

(** [ast.ImportSpec]: [Name] is the explicit alias ([nil] when absent),
    [Path] the [Value] of the path literal, with its quotes. *)
Record ImportSpec : Type := mkImportSpec {
  ImportName : option string;
  ImportPath : string
}.

Record TypeSpec : Type := mkTypeSpec {
  TypeName : string;
  TypeExpr : Expr
}.

Inductive Spec : Type :=
| SpecType (s : TypeSpec)
| SpecImport (s : ImportSpec)
| SpecValue (names : list string).

(** Declarations and the statements of function bodies; a statement that
    is neither a declaration nor a block is an [OtherStmt] with the
    statements it contains. *)
Inductive Decl : Type :=
| GenDecl (Specs : list Spec)
| FuncDecl (Name : string) (Body : list Stmt)
with Stmt : Type :=
| DeclStmt (D : Decl)
| BlockStmt (List : list Stmt)
| OtherStmt (children : list Stmt).

Record File : Type := mkFile {
  Name : string;
  Decls : list Decl;
  Imports : list ImportSpec
}.

Definition Spec_typeSpecs (s : Spec) : list TypeSpec :=
  match s with
  | SpecType t => [t]
  | _ => []
  end.

(** The [*ast.TypeSpec] nodes below a declaration, in the depth-first order
    of [ast.Walk]. *)
Fixpoint Decl_typeSpecs (d : Decl) : list TypeSpec :=
  match d with
  | GenDecl specs => flat_map Spec_typeSpecs specs
  | FuncDecl _ body => flat_map Stmt_typeSpecs body
  end
with Stmt_typeSpecs (s : Stmt) : list TypeSpec :=
  match s with
  | DeclStmt d => Decl_typeSpecs d
  | BlockStmt l => flat_map Stmt_typeSpecs l
  | OtherStmt l => flat_map Stmt_typeSpecs l
  end.

(** The [*ast.TypeSpec] nodes [ast.Inspect(file, f)] hands to [f] when [f]
    always returns [true], in order. *)
Definition typeSpecs (file : File) : list TypeSpec :=
  flat_map Decl_typeSpecs (Decls file).

End ast.

(** ** Package [jen]: the code the generator builds *)

Module jen.

(** The tokens of a statement.  A [*jen.Statement] is itself a [Code], and
    [Add] appends its arguments to the statement as they are. *)
Inductive Code : Type :=
| Id (name : string)
| Qual (path name : string)
| Map (typ : Code)
| Index (items : list Code)
| Op (op : string)
| Lit (v : string)
| String_
| Any
| Type_
| Func
| Params (params : list Code)
| Block (statements : list Code)
| Return (results : list Code)
| Assert (typ : Code)
| Comment (text : string)
| Line
| Statement (tokens : list Code).

Record importdef : Type := mkImportdef {
  name : string;
  alias : bool
}.

(** [jen.File]: the package name, the header comments, the import hints
    (a map from import path to [importdef]) and the statements of the
    file's group. *)
Record File : Type := mkFile {
  pkg : string;
  headers : list string;
  hints : list (string * importdef);
  items : list Code
}.

Definition NewFile (packageName : string) : File :=
  mkFile packageName [] [] [].

Definition HeaderComment (comment : string) (f : File) : File :=
  mkFile (pkg f) (headers f ++ [comment]) (hints f) (items f).

(** The map assignment [m[k] = v] and the map read [m[k]]. *)
Definition map_set {V : Type} (k : string) (v : V) (m : list (string * V))
  : list (string * V) :=
  (k, v) :: filter (fun e => negb (String.eqb (fst e) k)) m.


(** [f.ImportName(path, name)] and [f.ImportAlias(path, alias)] only record
    a hint for the path. *)
Definition ImportName (path name : string) (f : File) : File :=
  mkFile (pkg f) (headers f) (map_set path (mkImportdef name false) (hints f)) (items f).

Definition ImportAlias (path alias : string) (f : File) : File :=
  mkFile (pkg f) (headers f) (map_set path (mkImportdef alias true) (hints f)) (items f).

(** The group methods ([f.Type()], [f.Func()], [f.Commentf(...)],
    [f.Line()]) append one statement to the file. *)
Definition add (s : Code) (f : File) : File :=
  mkFile (pkg f) (headers f) (hints f) (items f ++ [s]).

(** The import paths of the [Qual] tokens of a piece of code, in order. *)
Fixpoint quals (c : Code) : list string :=
  match c with
  | Qual path _ => [path]
  | Map typ => quals typ
  | Assert typ => quals typ
  | Index l => flat_map quals l
  | Params l => flat_map quals l
  | Block l => flat_map quals l
  | Return l => flat_map quals l
  | Statement l => flat_map quals l
  | _ => []
  end.

(** The paths of the import block of the rendered file.  Rendering a
    [Qual] token registers its path as an import, unless the path is the
    file's own one (empty for [NewFile]); nothing else does: a hint whose
    path no [Qual] token uses is not rendered. *)
Definition imports (f : File) : list string :=
  nodup string_dec
    (filter (fun p => negb (String.eqb p EmptyString)) (flat_map quals (items f))).

End jen.

(** ** Panics *)

(** The panics of the generator, by the place that raises them. *)
Inductive panic : Type :=
| FieldMustHaveName                (* AccessFunc: field must have a name *)
| CouldNotQualify (err : string)   (* determineType: could not qualify type: err *)
| UnsupportedType (T : string)     (* determineType: unsupported type T *)
| MustBeStruct                     (* Type: partial type must be a struct *)
| RuntimeError (msg : string)      (* failed type assertion, index out of range *)
| RenderError (err : string).      (* Generate: the error of the rendering *)

(** The error kinds of the specification. *)
Inductive ErrorKind : Type :=
| MissingFieldName
| UnresolvedImport
| UnsupportedTypeShape.

Definition kind (p : panic) : option ErrorKind :=
  match p with
  | FieldMustHaveName => Some MissingFieldName
  | CouldNotQualify _ => Some UnresolvedImport
  | UnsupportedType _ => Some UnsupportedTypeShape
  | MustBeStruct => Some UnsupportedTypeShape
  | RuntimeError _ => None
  | RenderError _ => None
  end.

Inductive result (A : Type) : Type :=
| Ok (a : A)
| Panic (p : panic).

Arguments Ok {A} a.
Arguments Panic {A} p.

Definition bind {A B : Type} (r : result A) (k : A -> result B) : result B :=
  match r with
  | Ok a => k a
  | Panic p => Panic p
  end.

Notation "x <- r ;; k" := (bind r (fun x => k))
  (at level 61, r at next level, right associativity).

(** A [for _, x := range l] loop whose body updates the state [g]. *)
Fixpoint for_range {A G : Type} (l : list A) (body : A -> G -> result G) (g : G)
  : result G :=
  match l with
  | [] => Ok g
  | x :: l' => g' <- body x g ;; for_range l' body g'
  end.

(** ** The generator ([generator.go]) *)

Record GeneratorOpts : Type := mkOpts {
  Package : string;
  StructTag : string;
  TypePrefix : string
}.

Record Generator : Type := mkGenerator {
  opts : GeneratorOpts;
  file : jen.File
}.

Definition NewGenerator (o : GeneratorOpts) : Generator :=
  let trg := jen.NewFile (Package o) in
  let trg := jen.HeaderComment "Code generated by particle." trg in
  let trg := jen.HeaderComment "https://github.com/lukasl-dev/particle" trg in
  mkGenerator o trg.

(** [Generate] returns [g.file.GoString()].  The rendering of a [jen.File]
    to formatted source text is the library's; it is the argument
    [GoString], which returns the text or panics with the error of the
    rendering (a package name or a type name that is no identifier, for
    instance). *)
Definition Generate (GoString : jen.File -> result string) (g : Generator)
  : result string :=
  GoString (file g).

(** A statement appended to [g.file]. *)
Definition emit (s : jen.Code) (g : Generator) : Generator :=
  mkGenerator (opts g) (jen.add s (file g)).

Definition Import (imp : ast.ImportSpec) (g : Generator) : Generator :=
  let path := strings.Trim (ast.ImportPath imp) (String dquote EmptyString) in
  match ast.ImportName imp with
  | None => mkGenerator (opts g) (jen.ImportName path EmptyString (file g))
  | Some name => mkGenerator (opts g) (jen.ImportAlias path name (file g))
  end.

Fixpoint Imports (imp : list ast.ImportSpec) (g : Generator) : Generator :=
  match imp with
  | [] => g
  | i :: imp' => Imports imp' (Import i g)
  end.

(** The name of the generated type, [g.opts.TypePrefix + typ.Name.Name]. *)
Definition partialName (g : Generator) (typ : ast.TypeSpec) : string :=
  TypePrefix (opts g) ++ ast.TypeName typ.

Definition Type_ (typ : ast.TypeSpec) (g : Generator) : result Generator :=
  match ast.TypeExpr typ with
  | ast.StructType _ =>
      let g := emit (jen.Statement
                  [jen.Comment (partialName g typ ++ " is a partial type.")]) g in
      Ok (emit (jen.Statement
                  [jen.Type_; jen.Id (partialName g typ);
                   jen.Map (jen.Statement [jen.String_]); jen.Any]) g)
  | _ => Panic MustBeStruct
  end.

Definition Line (g : Generator) : Generator :=
  emit (jen.Statement [jen.Line]) g.

Definition fieldNames (g : Generator) (field : ast.Field)
  : result (string * string) :=
  let tagged :=
    if negb (String.eqb (StructTag (opts g)) EmptyString) then
      match ast.Tag field with
      | Some value =>
          let tag := reflect.Get value (StructTag (opts g)) in
          if negb (String.eqb tag EmptyString) then
            let i := strings.Index tag "," in
            Some (if negb (i =? -1)%Z then strings.slice_to tag i else tag)
          else None
      | None => None
      end
    else None in
  match ast.Names field with
  | [] => Panic (RuntimeError "index out of range [0] with length 0")
  | name :: _ =>
      match tagged with
      | Some tag => Ok (name, tag)
      | None => Ok (name, name)
      end
  end.

(** The [for] loop of [qualify]. *)
Fixpoint qualify_loop (pkgName Sel : string) (imports : list ast.ImportSpec)
  : string * string * option string :=
  match imports with
  | [] => (EmptyString, EmptyString, Some "could not find import")
  | imp :: imports' =>
      let path := strings.Trim (ast.ImportPath imp) (String dquote EmptyString) in
      let split := strings.Split path "/" in
      let last := nth (length split - 1) split EmptyString in
      if String.eqb last pkgName
         || match ast.ImportName imp with
            | Some name => String.eqb name pkgName
            | None => false
            end
      then (Sel, path, None)
      else qualify_loop pkgName Sel imports'
  end.

(** [qualify] on the selector expression [X.Sel]; the result is the triple
    [(name, pkg, err)]. *)
Definition qualify (X : ast.Expr) (Sel : string) (imports : list ast.ImportSpec)
  : result (string * string * option string) :=
  match X with
  | ast.Ident pkgName => Ok (qualify_loop pkgName Sel imports)
  | _ => Panic (RuntimeError
                  ("interface conversion: ast.Expr is " ++ ast.type_name X
                   ++ ", not *ast.Ident"))
  end.

Fixpoint determineType (typ : ast.Expr) (imp : list ast.ImportSpec)
  : result jen.Code :=
  match typ with
  | ast.Ident Name => Ok (jen.Statement [jen.Id Name])
  | ast.SelectorExpr X Sel =>
      r <- qualify X Sel imp ;;
      match r with
      | (fieldTypeName, fieldTypePkg, None) =>
          Ok (jen.Statement [jen.Qual fieldTypePkg fieldTypeName])
      | (_, _, Some err) => Panic (CouldNotQualify err)
      end
  | ast.MapType Key Value =>
      key <- determineType Key imp ;;
      value <- determineType Value imp ;;
      Ok (jen.Statement [jen.Map key; value])
  | ast.ArrayType _ Elt =>
      elt <- determineType Elt imp ;;
      Ok (jen.Statement [jen.Index []; elt])
  | ast.StarExpr X =>
      x <- determineType X imp ;;
      Ok (jen.Statement [jen.Op "*"; x])
  | x => Panic (UnsupportedType (ast.type_name x))
  end.

Definition AccessFunc (typ : ast.TypeSpec) (field : ast.Field)
  (imp : list ast.ImportSpec) (g : Generator) : result Generator :=
  match ast.Names field with
  | [] => Panic FieldMustHaveName
  | _ :: _ =>
      names <- fieldNames g field ;;
      let (fieldName, fieldKey) := names in
      let g := emit (jen.Statement
                  [jen.Comment (fieldName ++ " returns the value of the '"
                                ++ fieldKey ++ "' field.")]) g in
      ret <- determineType (ast.Type_ field) imp ;;
      assert <- determineType (ast.Type_ field) imp ;;
      Ok (emit (jen.Statement
                  [jen.Func;
                   jen.Params [jen.Statement [jen.Id "p"; jen.Id (partialName g typ)]];
                   jen.Id fieldName;
                   jen.Params [];
                   ret;
                   jen.Block
                     [jen.Statement
                        [jen.Return
                           [jen.Statement
                              [jen.Id "p"; jen.Index [jen.Statement [jen.Lit fieldKey]]]];
                         jen.Assert assert]]]) g)
  end.

Definition WithFunc (typ : ast.TypeSpec) (field : ast.Field)
  (imp : list ast.ImportSpec) (g : Generator) : result Generator :=
  names <- fieldNames g field ;;
  let (fieldName, fieldKey) := names in
  let g := emit (jen.Statement
              [jen.Comment ("With" ++ fieldName
                            ++ " updates p with the given v and returns p again.")]) g in
  v <- determineType (ast.Type_ field) imp ;;
  Ok (emit (jen.Statement
              [jen.Func;
               jen.Params [jen.Statement [jen.Id "p"; jen.Id (partialName g typ)]];
               jen.Id ("With" ++ fieldName);
               jen.Params [jen.Statement [jen.Id "v"; v]];
               jen.Id (partialName g typ);
               jen.Block
                 [jen.Statement
                    [jen.Id "p"; jen.Index [jen.Statement [jen.Lit fieldKey]];
                     jen.Op "="; jen.Id "v"];
                  jen.Statement [jen.Return [jen.Statement [jen.Id "p"]]]]]) g).

(** The body of the loop over the fields of a struct. *)
Definition fieldFuncs (node : ast.TypeSpec) (imp : list ast.ImportSpec)
  (field : ast.Field) (g : Generator) : result Generator :=
  g <- AccessFunc node field imp g ;;
  let g := Line g in
  g <- WithFunc node field imp g ;;
  Ok (Line g).

(** The function [File] hands to [ast.Inspect], on a [*ast.TypeSpec] node;
    on every other node it does nothing, and it always returns [true]. *)
Definition visit (imp : list ast.ImportSpec) (node : ast.TypeSpec) (g : Generator)
  : result Generator :=
  match ast.TypeExpr node with
  | ast.StructType Fields =>
      g <- Type_ node g ;;
      for_range Fields (fieldFuncs node imp) g
  | _ => Ok g
  end.

Definition File (f : ast.File) (g : Generator) : result Generator :=
  let g := Imports (ast.Imports f) g in
  for_range (ast.typeSpecs f) (visit (ast.Imports f)) g.

(** The unit generated for a parsed file: the [jen.File] that [generate] of
    the command line driver has built, with [NewGenerator] and [File], when
    it calls [Generate] to render it (see [cmd.generate]). *)
Definition generate (o : GeneratorOpts) (f : ast.File) : result jen.File :=
  g <- File f (NewGenerator o) ;;
  Ok (file g).

(** ** Reading the generated code *)

(** The type expressions of the specification.  On the input side the
    qualifier of [Qualified] is the alias written in the source, on the
    output side it is the import path [jen.Qual] is given. *)
Inductive TypeExpr : Type :=
| Named (id : string)
| Qualified (qualifier id : string)
| Pointer (inner : TypeExpr)
| Sequence (inner : TypeExpr)
| Mapping (keyType valueType : TypeExpr).

(** The syntax tree the parser builds for a type expression. *)
Fixpoint toExpr (t : TypeExpr) : ast.Expr :=
  match t with
  | Named id => ast.Ident id
  | Qualified alias id => ast.SelectorExpr (ast.Ident alias) id
  | Pointer inner => ast.StarExpr (toExpr inner)
  | Sequence inner => ast.ArrayType None (toExpr inner)
  | Mapping k v => ast.MapType (toExpr k) (toExpr v)
  end.

(** The Go type a statement renders: [id], [path.id], [*T], [[]T] and
    [map[K]V]. *)
Fixpoint typeOf (c : jen.Code) : option TypeExpr :=
  match c with
  | jen.Statement [jen.Id id] => Some (Named id)
  | jen.Statement [jen.Qual path id] => Some (Qualified path id)
  | jen.Statement [jen.Op op; x] =>
      if String.eqb op "*" then option_map Pointer (typeOf x) else None
  | jen.Statement [jen.Index []; x] => option_map Sequence (typeOf x)
  | jen.Statement [jen.Map k; v] =>
      match typeOf k, typeOf v with
      | Some k', Some v' => Some (Mapping k' v')
      | _, _ => None
      end
  | _ => None
  end.

Fixpoint TypeExpr_eqb (a b : TypeExpr) : bool :=
  match a, b with
  | Named x, Named y => String.eqb x y
  | Qualified p x, Qualified q y => String.eqb p q && String.eqb x y
  | Pointer x, Pointer y => TypeExpr_eqb x y
  | Sequence x, Sequence y => TypeExpr_eqb x y
  | Mapping k v, Mapping k' v' => TypeExpr_eqb k k' && TypeExpr_eqb v v'
  | _, _ => false
  end.

(** The members of a generated unit: the partial type
    [type name map[string]any], the accessor
    [func (p recv) name() typ { return p[key].(typ) }] and the mutator
    [func (p recv) name(v typ) recv { p[key] = v; return p }]. *)
Inductive Member : Type :=
| PartialType (name : string)
| Accessor (recv name : string) (typ : TypeExpr) (key : string)
| Mutator (recv name : string) (typ : TypeExpr) (key : string).

Definition member (c : jen.Code) : option Member :=
  match c with
  | jen.Statement
      [jen.Type_; jen.Id name; jen.Map (jen.Statement [jen.String_]); jen.Any] =>
      Some (PartialType name)
  | jen.Statement
      [jen.Func; jen.Params [jen.Statement [jen.Id p; jen.Id recv]]; jen.Id name;
       jen.Params []; ret;
       jen.Block
         [jen.Statement
            [jen.Return
               [jen.Statement [jen.Id p'; jen.Index [jen.Statement [jen.Lit key]]]];
             jen.Assert assert]]] =>
      match typeOf ret, typeOf assert with
      | Some t, Some t' =>
          if String.eqb p p' && TypeExpr_eqb t t'
          then Some (Accessor recv name t key) else None
      | _, _ => None
      end
  | jen.Statement
      [jen.Func; jen.Params [jen.Statement [jen.Id p; jen.Id recv]]; jen.Id name;
       jen.Params [jen.Statement [jen.Id v; typ]]; jen.Id res;
       jen.Block
         [jen.Statement
            [jen.Id p'; jen.Index [jen.Statement [jen.Lit key]]; jen.Op op;
             jen.Id v'];
          jen.Statement [jen.Return [jen.Statement [jen.Id p'']]]]] =>
      match typeOf typ with
      | Some t =>
          if String.eqb p p' && String.eqb p p'' && String.eqb v v'
             && String.eqb op "=" && String.eqb recv res
          then Some (Mutator recv name t key) else None
      | None => None
      end
  | _ => None
  end.

Fixpoint members (items : list jen.Code) : list Member :=
  match items with
  | [] => []
  | c :: items' =>
      match member c with
      | Some m => m :: members items'
      | None => members items'
      end
  end.

(** The members of a generated file, in order; comments and blank lines are
    no members. *)
Definition outline (f : jen.File) : list Member := members (jen.items f).

(** A member without its type and key. *)
Inductive Label : Type :=
| TypeDefinition (name : string)
| AccessorOf (name : string)
| MutatorOf (name : string).

Definition label (m : Member) : Label :=
  match m with
  | PartialType name => TypeDefinition name
  | Accessor _ name _ _ => AccessorOf name
  | Mutator _ name _ _ => MutatorOf name
  end.

(** ** The notions of the specification *)

(** A value truncated at its first comma. *)
Fixpoint beforeComma (s : string) : string :=
  match s with
  | EmptyString => EmptyString
  | String c s' => if Ascii.eqb c "," then EmptyString else String c (beforeComma s')
  end.

(** The string a tag literal denotes: a raw literal without its back quotes,
    an interpreted literal unquoted. *)
Definition tagString (lit : string) : option string :=
  match lit with
  | String c _ =>
      if Ascii.eqb c "`" then Some (strings.Trim lit "`") else strconv.Unquote lit
  | EmptyString => None
  end.

(** The tag entry a field carries under the name [T], if any. *)
Definition tagEntry (field : ast.Field) (T : string) : option string :=
  match ast.Tag field with
  | Some lit =>
      match tagString lit with
      | Some s => reflect.Lookup s T
      | None => None
      end
  | None => None
  end.


(** Every byte of a string passes a test. *)
Fixpoint allBytes (p : ascii -> bool) (s : string) : bool :=
  match s with
  | EmptyString => true
  | String c s' => p c && allBytes p s'
  end.

(** A byte of a tag value that needs no escape. *)
Definition plainByte (c : ascii) : bool :=
  negb (Ascii.eqb c dquote) && negb (Ascii.eqb c bslash).

(** The path of an import, without the quotes of its literal, and the last
    segment of a path. *)
Definition importPath (imp : ast.ImportSpec) : string :=
  strings.Trim (ast.ImportPath imp) (String dquote EmptyString).

Definition lastSegment (path : string) : string :=
  let split := strings.Split path "/" in
  nth (length split - 1) split EmptyString.

(** The Import Table as it is specified: an import is found under its
    explicit alias if it has one, and under the last segment of its path
    otherwise. *)
Definition resolvingAlias (imp : ast.ImportSpec) : string :=
  match ast.ImportName imp with
  | Some name => name
  | None => lastSegment (importPath imp)
  end.

Definition importTable (imports : list ast.ImportSpec) (alias : string)
  : option string :=
  option_map importPath
    (find (fun imp => String.eqb (resolvingAlias imp) alias) imports).

(** The test of [qualify]: the last segment of the path or the explicit
    alias is the package name looked for. *)
Definition importMatches (pkgName : string) (imp : ast.ImportSpec) : bool :=
  String.eqb (lastSegment (importPath imp)) pkgName
  || match ast.ImportName imp with
     | Some name => String.eqb name pkgName
     | None => false
     end.

(** The hint [Import] records for an import. *)
Definition importHint (imp : ast.ImportSpec) : jen.importdef :=
  match ast.ImportName imp with
  | None => jen.mkImportdef EmptyString false
  | Some name => jen.mkImportdef name true
  end.

(** The record declarations at the top level of a file. *)
Definition isStruct (t : ast.TypeSpec) : bool :=
  match ast.TypeExpr t with
  | ast.StructType _ => true
  | _ => false
  end.

Definition structFields (t : ast.TypeSpec) : list ast.Field :=
  match ast.TypeExpr t with
  | ast.StructType Fields => Fields
  | _ => []
  end.

Definition topLevelTypeSpecs (f : ast.File) : list ast.TypeSpec :=
  flat_map (fun d => match d with
                     | ast.GenDecl specs => flat_map ast.Spec_typeSpecs specs
                     | ast.FuncDecl _ _ => []
                     end) (ast.Decls f).

Definition topLevelRecords (f : ast.File) : list ast.TypeSpec :=
  filter isStruct (topLevelTypeSpecs f).

(** A file with the struct type declarations of [f], wherever they stand
    in [f], as its only declarations. *)
Definition structsOnly (f : ast.File) : ast.File :=
  ast.mkFile (ast.Name f)
    [ast.GenDecl (map ast.SpecType (filter isStruct (ast.typeSpecs f)))]
    (ast.Imports f).

(** The first declared name of a field. *)
Definition firstName (field : ast.Field) : string := hd EmptyString (ast.Names field).

(** The members the specification lists for a record: its type definition,
    then for every field the accessor followed by the mutator. *)
Definition recordLabels (prefix : string) (t : ast.TypeSpec) : list Label :=
  TypeDefinition (prefix ++ ast.TypeName t)
  :: flat_map (fun field => [AccessorOf (firstName field);
                             MutatorOf ("With" ++ firstName field)])
       (structFields t).

(** The Type Expression Translator as it is specified: a named type is
    kept, a qualified type is looked up among the imports (with the test of
    [qualify], first match), and pointers, sequences and mappings are rebuilt
    around the translations of their parts.  [None] is the failure of a
    lookup. *)
Fixpoint translate (imports : list ast.ImportSpec) (t : TypeExpr) : option TypeExpr :=
  match t with
  | Named id => Some (Named id)
  | Qualified alias id =>
      option_map (fun imp => Qualified (importPath imp) id)
        (find (importMatches alias) imports)
  | Pointer inner => option_map Pointer (translate imports inner)
  | Sequence inner => option_map Sequence (translate imports inner)
  | Mapping k v =>
      match translate imports k, translate imports v with
      | Some k', Some v' => Some (Mapping k' v')
      | _, _ => None
      end
  end.

(** Two type expressions of the same recursive structure: the same nodes
    and identifiers, up to the qualifiers. *)
Fixpoint sameShape (a b : TypeExpr) : Prop :=
  match a, b with
  | Named x, Named y => x = y
  | Qualified _ x, Qualified _ y => x = y
  | Pointer x, Pointer y => sameShape x y
  | Sequence x, Sequence y => sameShape x y
  | Mapping k v, Mapping k' v' => sameShape k k' /\ sameShape v v'
  | _, _ => False
  end.

(** The segments of a path put together again. *)
Fixpoint join (l : list string) (sep : ascii) : string :=
  match l with
  | [] => EmptyString
  | h :: t =>
      match t with
      | [] => h
      | _ => h ++ String sep (join t sep)
      end
  end.

(** ** Example inputs *)

(** A string between double quotes. *)
Definition quoted (s : string) : string :=
  String dquote (s ++ String dquote EmptyString).

(** [import foo (quoted a/bar)]: an import with an explicit alias. *)
Definition aliasedImport : ast.ImportSpec :=
  ast.mkImportSpec (Some "foo") (quoted "a/bar").

(** A file whose struct has a field of the unknown package [bar]. *)
Definition unresolvedField : ast.Field :=
  ast.mkField ["A"] (ast.SelectorExpr (ast.Ident "bar") "B") None.

Definition unresolvedStruct : ast.TypeSpec :=
  ast.mkTypeSpec "T" (ast.StructType [unresolvedField]).

Definition unresolvedFile : ast.File :=
  ast.mkFile "m" [ast.GenDecl [ast.SpecType unresolvedStruct]]
    [ast.mkImportSpec None (quoted "time")].

Definition someOpts : GeneratorOpts := mkOpts "partial" "particle" "Partial".

(** A file whose struct embeds [io.Reader] behind a named field. *)
Definition embeddedField : ast.Field :=
  ast.mkField [] (ast.SelectorExpr (ast.Ident "io") "Reader") None.

Definition embeddedStruct : ast.TypeSpec :=
  ast.mkTypeSpec "T"
    (ast.StructType [ast.mkField ["A"] (ast.Ident "int") None; embeddedField]).

Definition embeddedFile : ast.File :=
  ast.mkFile "m" [ast.GenDecl [ast.SpecType embeddedStruct]]
    [ast.mkImportSpec None (quoted "io")].

(** The scenario of the specification: [type User struct] with the field
    [Name string] tagged [particle:(quoted name)] in a raw literal, and the
    untagged field [Age int]. *)
Definition nameField : ast.Field :=
  ast.mkField ["Name"] (ast.Ident "string")
    (Some ("`particle:" ++ quoted "name" ++ "`")%string).

Definition ageField : ast.Field :=
  ast.mkField ["Age"] (ast.Ident "int") None.

Definition userStruct : ast.TypeSpec :=
  ast.mkTypeSpec "User" (ast.StructType [nameField; ageField]).

Definition userFile : ast.File :=
  ast.mkFile "models" [ast.GenDecl [ast.SpecType userStruct]] [].

Definition userOpts : GeneratorOpts := mkOpts "partial" "particle" "Partial".

(** The file generated for it. *)
Definition userOutput : jen.File :=
  Eval vm_compute in
    match generate userOpts userFile with
    | Ok out => out
    | Panic _ => jen.NewFile EmptyString
    end.

(** A file whose only declaration is the function
    [func f() { type T struct { A int } }]. *)
Definition localStruct : ast.TypeSpec :=
  ast.mkTypeSpec "T" (ast.StructType [ast.mkField ["A"] (ast.Ident "int") None]).

Definition localStructFile : ast.File :=
  ast.mkFile "m"
    [ast.FuncDecl "f" [ast.DeclStmt (ast.GenDecl [ast.SpecType localStruct])]] [].

Definition localOutput : jen.File :=
  Eval vm_compute in
    match generate someOpts localStructFile with
    | Ok out => out
    | Panic _ => jen.NewFile EmptyString
    end.

(** A file that imports [fmt] and declares [type T struct { A int }], and a
    file that imports [time] and declares [type E struct { At time.Time }]. *)
Definition fmtImport : ast.ImportSpec := ast.mkImportSpec None (quoted "fmt").



Definition timeImport : ast.ImportSpec := ast.mkImportSpec None (quoted "time").

Definition timeFile : ast.File :=
  ast.mkFile "m"
    [ast.GenDecl [ast.SpecImport timeImport];
     ast.GenDecl
       [ast.SpecType
          (ast.mkTypeSpec "E"
             (ast.StructType
                [ast.mkField ["At"] (ast.SelectorExpr (ast.Ident "time") "Time") None]))]]
    [timeImport].

Definition timeOutput : jen.File :=
  Eval vm_compute in
    match generate someOpts timeFile with
    | Ok out => out
    | Panic _ => jen.NewFile EmptyString
    end.


Definition secondEntryField : ast.Field :=
  ast.mkField ["A"] (ast.Ident "int")
    (Some ("`json:" ++ quoted "a" ++ " particle:" ++ quoted "nm,omitempty" ++ "`")%string).

(** ** The statements a generation appends *)

Definition emits (l : list jen.Code) (g : Generator) : Generator :=
  mkGenerator (opts g)
    (jen.mkFile (jen.pkg (file g)) (jen.headers (file g)) (jen.hints (file g))
       (jen.items (file g) ++ l)).

Definition accessorCode (recv fieldName fieldKey : string) (typ : jen.Code) : jen.Code :=
  jen.Statement
    [jen.Func; jen.Params [jen.Statement [jen.Id "p"; jen.Id recv]]; jen.Id fieldName;
     jen.Params []; typ;
     jen.Block
       [jen.Statement
          [jen.Return
             [jen.Statement [jen.Id "p"; jen.Index [jen.Statement [jen.Lit fieldKey]]]];
           jen.Assert typ]]].

Definition mutatorCode (recv fieldName fieldKey : string) (typ : jen.Code) : jen.Code :=
  jen.Statement
    [jen.Func; jen.Params [jen.Statement [jen.Id "p"; jen.Id recv]];
     jen.Id ("With" ++ fieldName);
     jen.Params [jen.Statement [jen.Id "v"; typ]]; jen.Id recv;
     jen.Block
       [jen.Statement
          [jen.Id "p"; jen.Index [jen.Statement [jen.Lit fieldKey]]; jen.Op "=";
           jen.Id "v"];
        jen.Statement [jen.Return [jen.Statement [jen.Id "p"]]]]].

(** The statements of one round of the loop over the fields. *)
Definition fieldItems (g : Generator) (node : ast.TypeSpec)
  (imp : list ast.ImportSpec) (field : ast.Field) : result (list jen.Code) :=
  match ast.Names field with
  | [] => Panic FieldMustHaveName
  | _ :: _ =>
      names <- fieldNames g field ;;
      typ <- determineType (ast.Type_ field) imp ;;
      Ok [jen.Statement
            [jen.Comment (fst names ++ " returns the value of the '"
                          ++ snd names ++ "' field.")];
          accessorCode (partialName g node) (fst names) (snd names) typ;
          jen.Statement [jen.Line];
          jen.Statement
            [jen.Comment ("With" ++ fst names
                          ++ " updates p with the given v and returns p again.")];
          mutatorCode (partialName g node) (fst names) (snd names) typ;
          jen.Statement [jen.Line]]
  end.

Fixpoint collect {A : Type} (l : list A) (f : A -> result (list jen.Code))
  : result (list jen.Code) :=
  match l with
  | [] => Ok []
  | x :: l' => a <- f x ;; b <- collect l' f ;; Ok (a ++ b)
  end.

(** The statements of one type declaration, and of a file. *)
Definition specItems (g : Generator) (imp : list ast.ImportSpec)
  (node : ast.TypeSpec) : result (list jen.Code) :=
  match ast.TypeExpr node with
  | ast.StructType Fields =>
      l <- collect Fields (fieldItems g node imp) ;;
      Ok (jen.Statement [jen.Comment (partialName g node ++ " is a partial type.")]
          :: jen.Statement
               [jen.Type_; jen.Id (partialName g node);
                jen.Map (jen.Statement [jen.String_]); jen.Any]
          :: l)
  | _ => Ok []
  end.

Definition fileItems (g : Generator) (f : ast.File) : result (list jen.Code) :=
  collect (ast.typeSpecs f) (specItems g (ast.Imports f)).

(** ** Further notions *)

(** The expressions [determineType] translates: identifiers, selectors of an
    identifier that an import matches, maps, arrays and slices, pointers. *)
Fixpoint translatable (imp : list ast.ImportSpec) (e : ast.Expr) : bool :=
  match e with
  | ast.Ident _ => true
  | ast.SelectorExpr X _ =>
      match X with
      | ast.Ident pkgName => existsb (importMatches pkgName) imp
      | _ => false
      end
  | ast.MapType Key Value => translatable imp Key && translatable imp Value
  | ast.ArrayType _ Elt => translatable imp Elt
  | ast.StarExpr X => translatable imp X
  | _ => false
  end.

(** A selector whose qualifier is itself a selector, as in [a.b.C]. *)
Definition nestedSelectorFile : ast.File :=
  ast.mkFile "m"
    [ast.GenDecl
       [ast.SpecType
          (ast.mkTypeSpec "T"
             (ast.StructType
                [ast.mkField ["A"]
                   (ast.SelectorExpr (ast.SelectorExpr (ast.Ident "a") "b") "C")
                   None]))]]
    [].

(** A byte of a tag value that [strconv.Unquote] returns as it is: an ASCII
    byte that is no quote, no backslash and no newline. *)
Definition asciiPlainByte (c : ascii) : bool :=
  plainByte c && negb (N_of_ascii c =? 10)%N && (N_of_ascii c <? 128)%N.

(** The field [A int] with the interpreted tag literal
    (quoted particle:\(quoted a\)). *)
Definition interpretedTagField : ast.Field :=
  ast.mkField ["A"] (ast.Ident "int")
    (Some (String dquote
             ("particle:" ++ String bslash (String dquote
                ("a" ++ String bslash (String dquote (String dquote EmptyString))))))).

(** A byte that is no double quote. *)
Definition noQuote (c : ascii) : bool := negb (Ascii.eqb c dquote).

(** The file [f] with the imports [more] behind its own. *)
Definition withMoreImports (f : ast.File) (more : list ast.ImportSpec) : ast.File :=
  ast.mkFile (ast.Name f) (ast.Decls f) (ast.Imports f ++ more).

(** The members of a unit come in groups: a type definition, then pairs of
    an accessor and a mutator on this type, the mutator named [With] and the
    name of the accessor, both of one type and on one key. *)
Fixpoint wellPaired (recv : option string) (l : list Member) : bool :=
  match l with
  | [] => true
  | PartialType name :: l' => wellPaired (Some name) l'
  | Accessor r n t k :: l' =>
      match l' with
      | Mutator r' n' t' k' :: l'' =>
          match recv with
          | Some r0 => String.eqb r0 r
          | None => false
          end
          && String.eqb r r' && String.eqb n' ("With" ++ n)
          && TypeExpr_eqb t t' && String.eqb k k' && wellPaired recv l''
      | _ => false
      end
  | Mutator _ _ _ _ :: _ => false
  end.

Inductive isPairs (recv : string) : list Member -> Prop :=
| isPairs_nil : isPairs recv []
| isPairs_cons n t k l :
    isPairs recv l ->
    isPairs recv (Accessor recv n t k :: Mutator recv ("With" ++ n) t k :: l).

Inductive isUnit : list Member -> Prop :=
| isUnit_nil : isUnit []
| isUnit_cons name ps l :
    isPairs name ps -> isUnit l -> isUnit (PartialType name :: ps ++ l).

(** A file without struct: a function and the declaration [type X int]. *)
Definition noStructFile : ast.File :=
  ast.mkFile "m"
    [ast.FuncDecl "f" [ast.OtherStmt []];
     ast.GenDecl [ast.SpecType (ast.mkTypeSpec "X" (ast.Ident "int"))]]
    [fmtImport].

(** A file with the declarations [decls] and the imports [imports]. *)
Definition fileOf (decls : list ast.Decl) (imports : list ast.ImportSpec) : ast.File :=
  ast.mkFile "m" decls imports.

(** ** The command line driver *)

Module cmd.

Record rootCmd : Type := mkRootCmd {
  dryRun : bool;
  globs : list string;
  dir : string;
  out : string;
  structTag : string;
  typePrefix : string;
  pkg : string
}.

(** What the driver calls outside of the repository: the file system with
    [doublestar.Glob] over [os.DirFS(dir)], [parser.ParseFile], [os.Stat]
    followed by [os.IsNotExist], [os.WriteFile] and [os.MkdirAll]; the
    rendering [GoString] of a [jen.File], which can panic; [filepath.Base]
    and [filepath.Join].  An [error] is kept as its message. *)
Record OS : Type := mkOS {
  FS : Type;
  Glob : FS -> string -> string -> list string + string;
  ParseFile : FS -> string -> ast.File + string;
  GoString : jen.File -> result string;
  StatIsNotExist : FS -> string -> bool;
  WriteFile : FS -> string -> string -> FS * option string;
  MkdirAll : FS -> string -> FS * option string;
  Base : string -> string;
  Join : string -> string -> string
}.

(** The state of a run: the lines printed by [fmt.Println], and the file
    system. *)
Record World (os : OS) : Type := mkWorld {
  stdout : list string;
  fs : FS os
}.

Arguments mkWorld {os} stdout fs.
Arguments stdout {os} w.
Arguments fs {os} w.

Definition Println {os : OS} (line : string) (w : World os) : World os :=
  mkWorld (stdout w ++ [line]) (fs w).

(** [strings.Join] and [strings.HasSuffix]. *)
Fixpoint strings_Join (elems : list string) (sep : string) : string :=
  match elems with
  | [] => EmptyString
  | e :: rest =>
      match rest with
      | [] => e
      | _ => e ++ sep ++ strings_Join rest sep
      end
  end.

Fixpoint strings_HasSuffix (s suffix : string) : bool :=
  String.eqb s suffix
  || match s with
     | EmptyString => false
     | String _ s' => strings_HasSuffix s' suffix
     end.

Definition pre (c : rootCmd) : option string :=
  if Nat.eqb (length (globs c)) 0 then
    Some "no glob patterns given: use --glob <pattern> to specify glob patterns"
  else if negb (dryRun c) && String.eqb (out c) EmptyString then
    Some "no output file or directory given: use --out <path> to specify an output file or directory"
  else None.

Definition glob (os : OS) (c : rootCmd) (fsys : FS os) : list string + string :=
  Glob os fsys (dir c) ("{" ++ strings_Join (globs c) "," ++ "}").

(** [generate]: the pair [(code, err)], or the panic of the generator. *)
Definition generate (os : OS) (c : rootCmd) (fsys : FS os) (path : string)
  : result (string * option string) :=
  match ParseFile os fsys path with
  | inr err => Ok (EmptyString, Some ("could not parse file: " ++ err)%string)
  | inl file =>
      let opts := mkOpts (pkg c) (structTag c) (typePrefix c) in
      g <- File file (NewGenerator opts) ;;
      code <- Generate (GoString os) g ;;
      Ok (code, None)
  end.

Definition writeInto (os : OS) (c : rootCmd) (srcPath code : string) (w : World os)
  : World os * option string :=
  if strings_HasSuffix (out c) ".go" then
    if StatIsNotExist os (fs w) (out c) then
      let (fs', err) := WriteFile os (fs w) (out c) code in
      match err with
      | Some e => (mkWorld (stdout w) fs', Some ("could not write file: " ++ e)%string)
      | None => (mkWorld (stdout w) fs', None)
      end
    else (w, None)
  else
    let (fs1, err) := MkdirAll os (fs w) (out c) in
    match err with
    | Some e => (mkWorld (stdout w) fs1, Some ("could not create directory: " ++ e)%string)
    | None =>
        let dstName := Base os srcPath in
        let dstPath := Join os (out c) dstName in
        let (fs2, err) := WriteFile os fs1 dstPath code in
        match err with
        | Some e => (mkWorld (stdout w) fs2, Some ("could not write file: " ++ e)%string)
        | None => (mkWorld (stdout w) fs2, None)
        end
    end.

(** The loop of [run] over the paths that are left, [n] being [len(paths)]
    and [i] the index of the first of them. *)
Fixpoint run_loop (os : OS) (c : rootCmd) (n i : nat) (paths : list string)
  (w : World os) : World os * result (option string) :=
  match paths with
  | [] => (w, Ok None)
  | srcPath :: paths' =>
      match generate os c (fs w) srcPath with
      | Panic p => (w, Panic p)
      | Ok (_, Some err) => (w, Ok (Some ("could not generate code: " ++ err)%string))
      | Ok (code, None) =>
          if dryRun c then
            let w := Println ("// Source: " ++ srcPath) w in
            let w := Println code w in
            let w := if negb (Z.of_nat i =? Z.of_nat n - 1)%Z
                     then Println "---" w else w in
            run_loop os c n (S i) paths' w
          else
            match writeInto os c srcPath code w with
            | (w', Some err) => (w', Ok (Some ("could not write: " ++ err)%string))
            | (w', None) => run_loop os c n (S i) paths' w'
            end
      end
  end.

Definition run (os : OS) (c : rootCmd) (w : World os)
  : World os * result (option string) :=
  match glob os c (fs w) with
  | inr err => (w, Ok (Some ("could not glob: " ++ err)%string))
  | inl paths => run_loop os c (length paths) 0 paths w
  end.

(** What a dry run prints for the sources and their codes: for each one the
    line of its path and its code, and a line of dashes between two of
    them. *)
Fixpoint dryOutput (l : list (string * string)) : list string :=
  match l with
  | [] => []
  | (path, code) :: rest =>
      ("// Source: " ++ path)%string :: code
      :: match rest with
         | [] => []
         | _ => "---" :: dryOutput rest
         end
  end.

(** A file system for the examples: the files with their contents; every
    source parses to [userFile], and every write succeeds. *)
Definition listOS : OS :=
  mkOS (list (string * string))
    (fun _ _ _ => inl ["a.go"; "b.go"])
    (fun _ path => if String.eqb path "bad.go" then inr "syntax error" else inl userFile)
    (fun f => Ok ("package " ++ jen.pkg f)%string)
    (fun fsys path => negb (existsb (fun e => String.eqb (fst e) path) fsys))
    (fun fsys path code => ((path, code) :: fsys, None))
    (fun fsys _ => (fsys, None))
    (fun path => path)
    (fun a b => a ++ "/" ++ b)%string.

Definition dryCmd : rootCmd :=
  mkRootCmd true ["*.go"] "." "partial" "particle" "" "partial".

Definition singleFileCmd : rootCmd :=
  mkRootCmd false ["*.go"] "." "out.go" "particle" "" "partial".

Definition emptyWorld : World listOS := @mkWorld listOS [] [].

Definition existingWorld : World listOS := @mkWorld listOS [] [("out.go", "old")].

End cmd.




(** A file with the imports [foo (quoted a/bar)] and [(quoted b/bar)], where
    [bar] names the package [b/bar], and the declaration
    [type S struct { B bar.T }]. *)
Definition barImport : ast.ImportSpec := ast.mkImportSpec None (quoted "b/bar").

Definition shadowedField : ast.Field :=
  ast.mkField ["B"] (ast.SelectorExpr (ast.Ident "bar") "T") None.

Definition shadowedFile : ast.File :=
  ast.mkFile "m"
    [ast.GenDecl [ast.SpecImport aliasedImport; ast.SpecImport barImport];
     ast.GenDecl [ast.SpecType (ast.mkTypeSpec "S" (ast.StructType [shadowedField]))]]
    [aliasedImport; barImport].

Definition shadowedOutput : jen.File :=
  Eval vm_compute in
    match generate someOpts shadowedFile with
    | Ok out => out
    | Panic _ => jen.NewFile EmptyString
    end.

(** The statements of a generated file that are no members: a comment and
    a blank line. *)
Definition trivia (c : jen.Code) : bool :=
  match c with
  | jen.Statement [jen.Comment _] => true
  | jen.Statement [jen.Line] => true
  | _ => false
  end.

(** The declaration [type P struct { A, B int }]: one field entry that
    declares the two fields [A] and [B]. *)
Definition pairField : ast.Field := ast.mkField ["A"; "B"] (ast.Ident "int") None.

Definition pairStruct : ast.TypeSpec := ast.mkTypeSpec "P" (ast.StructType [pairField]).

Definition pairFile : ast.File :=
  ast.mkFile "m" [ast.GenDecl [ast.SpecType pairStruct]] [].

Definition pairOutput : jen.File :=
  Eval vm_compute in
    match generate someOpts pairFile with
    | Ok out => out
    | Panic _ => jen.NewFile EmptyString
    end.

(** * Properties *)

(** ** The error monad and the loops *)

Lemma bind_Ok {A B : Type} (r : result A) (k : A -> result B) (b : B) :
  bind r k = Ok b -> exists a, r = Ok a /\ k a = Ok b.
Proof.
  destruct r as [a|p]; simpl; intros H; [exists a; auto | discriminate].
Qed.

Lemma emits_nil (g : Generator) : emits [] g = g.
Proof.
  destruct g as [o [pk hd hi it]]; unfold emits; simpl. now rewrite app_nil_r.
Qed.

Lemma emits_app (l1 l2 : list jen.Code) (g : Generator) :
  emits l2 (emits l1 g) = emits (l1 ++ l2) g.
Proof.
  unfold emits; simpl. now rewrite app_assoc.
Qed.

Lemma emit_emits (s : jen.Code) (g : Generator) : emit s g = emits [s] g.
Proof. reflexivity. Qed.

Lemma fieldNames_opts (g g' : Generator) (field : ast.Field) :
  opts g = opts g' -> fieldNames g field = fieldNames g' field.
Proof.
  intros H; unfold fieldNames; now rewrite H.
Qed.

Lemma fieldItems_opts (g g' : Generator) node imp field :
  opts g = opts g' -> fieldItems g node imp field = fieldItems g' node imp field.
Proof.
  intros H; unfold fieldItems, partialName.
  rewrite (fieldNames_opts g g' field H), H. reflexivity.
Qed.

Lemma collect_ext {A : Type} (l : list A) (f f' : A -> result (list jen.Code)) :
  (forall x, In x l -> f x = f' x) -> collect l f = collect l f'.
Proof.
  induction l as [|x l IH]; simpl; intros H; [reflexivity|].
  rewrite (H x (or_introl eq_refl)), IH; [reflexivity|].
  intros y Hy; apply H; now right.
Qed.

Lemma specItems_opts (g g' : Generator) imp node :
  opts g = opts g' -> specItems g imp node = specItems g' imp node.
Proof.
  intros H; unfold specItems, partialName.
  destruct (ast.TypeExpr node); try reflexivity.
  rewrite (collect_ext Fields _ (fieldItems g' node imp)), H; [reflexivity|].
  intros x _; now apply fieldItems_opts.
Qed.

(** A loop whose body appends the statements [f x] appends them all. *)
Lemma for_range_collect {A : Type} (body : A -> Generator -> result Generator)
  (f : A -> result (list jen.Code)) (o : GeneratorOpts) (l : list A) :
  (forall x g, opts g = o -> body x g = (s <- f x ;; Ok (emits s g))) ->
  forall g, opts g = o ->
    for_range l body g = (s <- collect l f ;; Ok (emits s g)).
Proof.
  intros Hbody; induction l as [|x l IH]; intros g Hg; simpl.
  - now rewrite emits_nil.
  - rewrite (Hbody x g Hg). destruct (f x) as [a|p]; simpl; [|reflexivity].
    rewrite IH by exact Hg. destruct (collect l f) as [b|p]; simpl; [|reflexivity].
    now rewrite emits_app.
Qed.

Lemma fieldFuncs_items node imp field g :
  fieldFuncs node imp field g = (s <- fieldItems g node imp field ;; Ok (emits s g)).
Proof.
  unfold fieldFuncs, AccessFunc, WithFunc, fieldItems.
  destruct (ast.Names field) as [|n rest] eqn:Hn; [reflexivity|].
  assert (Hfn : forall g', opts g' = opts g -> fieldNames g' field = fieldNames g field)
    by (intros g' H; now apply fieldNames_opts).
  destruct (fieldNames g field) as [[fieldName fieldKey]|p] eqn:Hf; simpl; [|reflexivity].
  destruct (determineType (ast.Type_ field) imp) as [typ|p]; simpl; [|reflexivity].
  unfold Line. rewrite Hfn by reflexivity. simpl.
  unfold emits, emit, jen.add, partialName; simpl.
  repeat rewrite <- app_assoc. reflexivity.
Qed.

Lemma visit_items imp node g :
  visit imp node g = (s <- specItems g imp node ;; Ok (emits s g)).
Proof.
  unfold visit, specItems, Type_.
  destruct (ast.TypeExpr node) eqn:He; simpl; try now rewrite emits_nil.
  rewrite (for_range_collect (fieldFuncs node imp) (fieldItems g node imp) (opts g)).
  - destruct (collect Fields (fieldItems g node imp)) as [l|p]; simpl; [|reflexivity].
    unfold emits, emit, jen.add, partialName; simpl.
    repeat rewrite <- app_assoc. reflexivity.
  - intros x g' Hg'. rewrite fieldFuncs_items.
    now rewrite (fieldItems_opts g' g node imp x Hg').
  - reflexivity.
Qed.

Lemma Imports_opts imp g : opts (Imports imp g) = opts g.
Proof.
  revert g; induction imp as [|i imp IH]; intros g; simpl; [reflexivity|].
  rewrite IH. unfold Import. now destruct (ast.ImportName i).
Qed.

Lemma Imports_items imp g : jen.items (file (Imports imp g)) = jen.items (file g).
Proof.
  revert g; induction imp as [|i imp IH]; intros g; simpl; [reflexivity|].
  rewrite IH. unfold Import. now destruct (ast.ImportName i).
Qed.

Lemma File_items f g :
  File f g = (s <- fileItems g f ;; Ok (emits s (Imports (ast.Imports f) g))).
Proof.
  unfold File, fileItems.
  rewrite (for_range_collect (visit (ast.Imports f)) (specItems g (ast.Imports f)) (opts g)).
  - reflexivity.
  - intros x g' Hg'. rewrite visit_items.
    now rewrite (specItems_opts g' g (ast.Imports f) x Hg').
  - apply Imports_opts.
Qed.

Lemma Imports_pkg imp g : jen.pkg (file (Imports imp g)) = jen.pkg (file g).
Proof.
  revert g; induction imp as [|i imp IH]; intros g; simpl; [reflexivity|].
  rewrite IH. unfold Import. now destruct (ast.ImportName i).
Qed.

Lemma Imports_headers imp g :
  jen.headers (file (Imports imp g)) = jen.headers (file g).
Proof.
  revert g; induction imp as [|i imp IH]; intros g; simpl; [reflexivity|].
  rewrite IH. unfold Import. now destruct (ast.ImportName i).
Qed.

(** The generated file: the package name and the header comments of
    [NewGenerator], the hints of the imports, and the statements of the type
    declarations. *)
Lemma generate_items o f :
  generate o f =
  (s <- fileItems (NewGenerator o) f ;;
   Ok (jen.mkFile (Package o)
         ["Code generated by particle."; "https://github.com/lukasl-dev/particle"]
         (jen.hints (file (Imports (ast.Imports f) (NewGenerator o)))) s)).
Proof.
  unfold generate. rewrite File_items.
  destruct (fileItems (NewGenerator o) f) as [s|p]; simpl; [|reflexivity].
  unfold emits; simpl.
  rewrite Imports_pkg, Imports_headers, Imports_items. reflexivity.
Qed.

(** ** The translation of types *)

Lemma qualify_loop_find pkgName Sel imports :
  qualify_loop pkgName Sel imports =
  match find (importMatches pkgName) imports with
  | Some imp => (Sel, importPath imp, None)
  | None => (EmptyString, EmptyString, Some "could not find import")
  end.
Proof.
  induction imports as [|imp imports IH]; simpl; [reflexivity|].
  unfold importMatches at 1, lastSegment, importPath.
  destruct (_ || _); [reflexivity | exact IH].
Qed.

Lemma determineType_Qualified alias id imports :
  determineType (ast.SelectorExpr (ast.Ident alias) id) imports =
  match find (importMatches alias) imports with
  | Some imp => Ok (jen.Statement [jen.Qual (importPath imp) id])
  | None => Panic (CouldNotQualify "could not find import")
  end.
Proof.
  simpl. rewrite qualify_loop_find.
  now destruct (find (importMatches alias) imports).
Qed.

Lemma determineType_typeOf e imports c :
  determineType e imports = Ok c -> exists t, typeOf c = Some t.
Proof.
  revert c; induction e; intros c H; simpl in H; try discriminate.
  - inversion H; subst. now exists (Named Name).
  - apply bind_Ok in H as [[[n pk] err] [_ H]].
    destruct err; [discriminate|]. inversion H; subst. now exists (Qualified pk n).
  - apply bind_Ok in H as [k [Hk H]]. apply bind_Ok in H as [v [Hv H]].
    inversion H; subst.
    destruct (IHe1 _ Hk) as [tk Htk], (IHe2 _ Hv) as [tv Htv].
    exists (Mapping tk tv). simpl. now rewrite Htk, Htv.
  - apply bind_Ok in H as [x [Hx H]]. inversion H; subst.
    destruct (IHe _ Hx) as [t Ht]. exists (Sequence t). simpl. now rewrite Ht.
  - apply bind_Ok in H as [x [Hx H]]. inversion H; subst.
    destruct (IHe _ Hx) as [t Ht]. exists (Pointer t). simpl. now rewrite Ht.
Qed.

Lemma translate_sameShape imports t o :
  translate imports t = Some o -> sameShape t o.
Proof.
  revert o; induction t; intros o H; simpl in H.
  - inversion H; subst; reflexivity.
  - destruct (find _ imports); inversion H; subst; reflexivity.
  - destruct (translate imports t); inversion H; subst; simpl; auto.
  - destruct (translate imports t); inversion H; subst; simpl; auto.
  - destruct (translate imports t1), (translate imports t2); inversion H; subst.
    simpl; auto.
Qed.

(** C5.  On the type expressions built from named and qualified types,
    pointers, sequences and mappings, [determineType] is the translator of
    the specification: when every qualified type resolves it returns a
    statement that renders the translated type, which has the structure of
    the input; otherwise it panics on the lookup.  A pointer to a sequence
    of [int] becomes the pointer token, the index token and the identifier
    [int]. *)
Theorem determineType_shape (imports : list ast.ImportSpec) (t : TypeExpr) :
  match translate imports t with
  | Some o => sameShape t o /\
      exists c, determineType (toExpr t) imports = Ok c /\ typeOf c = Some o
  | None => exists err, determineType (toExpr t) imports = Panic (CouldNotQualify err)
  end
  /\ determineType (toExpr (Pointer (Sequence (Named "int")))) imports =
     Ok (jen.Statement
           [jen.Op "*"; jen.Statement [jen.Index []; jen.Statement [jen.Id "int"]]])
  /\ translate imports (Pointer (Sequence (Named "int"))) =
     Some (Pointer (Sequence (Named "int"))).
Proof.
  split; [|split; reflexivity].
  induction t.
  - simpl. split; [reflexivity|]. eexists; split; reflexivity.
  - cbn [translate toExpr]. rewrite determineType_Qualified.
    destruct (find (importMatches qualifier) imports); simpl.
    + split; [reflexivity|]. eexists; split; reflexivity.
    + eexists; reflexivity.
  - cbn [translate toExpr determineType].
    destruct (translate imports t) as [o|]; simpl.
    + destruct IHt as [Hs [c [Hc Ht]]]. split; [exact Hs|].
      rewrite Hc; simpl. eexists; split; [reflexivity|]. simpl. now rewrite Ht.
    + destruct IHt as [err Hc]. rewrite Hc; simpl. now exists err.
  - cbn [translate toExpr determineType].
    destruct (translate imports t) as [o|]; simpl.
    + destruct IHt as [Hs [c [Hc Ht]]]. split; [exact Hs|].
      rewrite Hc; simpl. eexists; split; [reflexivity|]. simpl. now rewrite Ht.
    + destruct IHt as [err Hc]. rewrite Hc; simpl. now exists err.
  - cbn [translate toExpr determineType].
    destruct (translate imports t1) as [k|]; simpl.
    + destruct IHt1 as [Hs1 [c1 [Hc1 Ht1]]]. rewrite Hc1; simpl.
      destruct (translate imports t2) as [v|]; simpl.
      * destruct IHt2 as [Hs2 [c2 [Hc2 Ht2]]]. rewrite Hc2; simpl.
        split; [now split|]. eexists; split; [reflexivity|].
        simpl. now rewrite Ht1, Ht2.
      * destruct IHt2 as [err Hc2]. rewrite Hc2; simpl. now exists err.
    + destruct IHt1 as [err Hc1]. rewrite Hc1; simpl.
      destruct (translate imports t2); now exists err.
Qed.

(** ** The last segment of a path *)

Lemma append_assoc (a b c : string) : ((a ++ b) ++ c = a ++ (b ++ c))%string.
Proof.
  induction a as [|x a IH]; simpl; [reflexivity | now rewrite IH].
Qed.

Lemma Split_not_nil s sep : strings.Split s sep <> [].
Proof.
  destruct s as [|c s]; simpl; [discriminate|].
  destruct (Ascii.eqb c sep); [discriminate|].
  destruct (strings.Split s sep); discriminate.
Qed.

Lemma join_Split s sep : join (strings.Split s sep) sep = s.
Proof.
  induction s as [|c s IH]; [reflexivity|].
  simpl. destruct (Ascii.eqb c sep) eqn:E.
  - apply Ascii.eqb_eq in E; subst c.
    change (join (EmptyString :: strings.Split s sep) sep = String sep s).
    simpl join. destruct (strings.Split s sep) eqn:Hs.
    + now destruct (Split_not_nil s sep).
    + simpl. now rewrite <- IH.
  - destruct (strings.Split s sep) as [|h t] eqn:Hs.
    + now destruct (Split_not_nil s sep).
    + rewrite <- IH. simpl. destruct t; reflexivity.
Qed.

Lemma Split_segments s sep :
  Forall (fun seg => strings.contains seg sep = false) (strings.Split s sep).
Proof.
  induction s as [|c s IH]; simpl.
  - constructor; [reflexivity|constructor].
  - destruct (Ascii.eqb c sep) eqn:E.
    + constructor; [reflexivity|exact IH].
    + destruct (strings.Split s sep) as [|h t].
      * constructor; [|constructor]. simpl.
        rewrite Ascii.eqb_sym, E. reflexivity.
      * inversion IH; subst. constructor; [|assumption].
        simpl. rewrite Ascii.eqb_sym, E. assumption.
Qed.

Lemma nth_last_segment (l : list string) :
  nth (length l - 1) l EmptyString = last l EmptyString.
Proof.
  induction l as [|h t IH]; [reflexivity|].
  destruct t as [|h' t']; [reflexivity|].
  change (last (h :: h' :: t') EmptyString) with (last (h' :: t') EmptyString).
  rewrite <- IH. simpl. now rewrite Nat.sub_0_r.
Qed.

Lemma last_In (l : list string) : l <> [] -> In (last l EmptyString) l.
Proof.
  induction l as [|h t IH]; intros Hl; [contradiction|].
  destruct t as [|h' t']; [now left|].
  right. apply IH. discriminate.
Qed.

Lemma join_last (l : list string) sep :
  l <> [] ->
  join l sep = last l EmptyString
  \/ exists pre, join l sep = (pre ++ String sep (last l EmptyString))%string.
Proof.
  induction l as [|h t IH]; intros Hl; [contradiction|].
  destruct t as [|h' t']; [now left|].
  right. destruct IH as [E|[pre E]]; [discriminate| |].
  - exists h. change (join (h :: h' :: t') sep)
      with (h ++ String sep (join (h' :: t') sep))%string.
    now rewrite E.
  - exists (h ++ String sep pre)%string.
    change (join (h :: h' :: t') sep)
      with (h ++ String sep (join (h' :: t') sep))%string.
    rewrite E.
    change (last (h :: h' :: t') EmptyString) with (last (h' :: t') EmptyString).
    now rewrite append_assoc.
Qed.

(** The last segment of a path holds no slash, and the path is this segment,
    or ends with a slash followed by this segment. *)
Lemma lastSegment_spec path :
  strings.contains (lastSegment path) "/" = false
  /\ (path = lastSegment path
      \/ exists pre, path = (pre ++ String "/" (lastSegment path))%string).
Proof.
  unfold lastSegment. rewrite nth_last_segment. split.
  - pose proof (Split_segments path "/") as H.
    rewrite Forall_forall in H. apply H, last_In, Split_not_nil.
  - pose proof (join_last _ "/" (Split_not_nil path "/")) as H.
    now rewrite join_Split in H.
Qed.

(** ** Panics abort the generation *)

Lemma collect_Panic {A : Type} (l : list A) (f : A -> result (list jen.Code)) x :
  In x l -> (exists p, f x = Panic p) -> exists p, collect l f = Panic p.
Proof.
  induction l as [|y l IH]; intros Hin [p Hp]; [contradiction|].
  simpl. destruct (f y) as [a|q] eqn:Hy; simpl; [|now exists q].
  destruct Hin as [->|Hin]; [congruence|].
  destruct (IH Hin (ex_intro _ p Hp)) as [q Hq]. rewrite Hq. now exists q.
Qed.

Lemma collect_Panic_inv {A : Type} (l : list A) (f : A -> result (list jen.Code)) p :
  collect l f = Panic p -> exists x, In x l /\ f x = Panic p.
Proof.
  induction l as [|y l IH]; simpl; intros H; [discriminate|].
  destruct (f y) as [a|q] eqn:Hy; simpl in H.
  - destruct (collect l f) as [b|q]; simpl in H; [discriminate|].
    destruct (IH H) as [x [Hx Hf]]. exists x. split; [now right | assumption].
  - exists y. split; [now left | congruence].
Qed.

Lemma fieldNames_Ok g field name rest :
  ast.Names field = name :: rest -> exists key, fieldNames g field = Ok (name, key).
Proof.
  intros H. unfold fieldNames. rewrite H.
  match goal with |- context [match ?t with Some _ => _ | None => _ end] =>
    destruct t as [tag|] end; eexists; reflexivity.
Qed.

Lemma fieldItems_Panic_inv g node imp field p :
  fieldItems g node imp field = Panic p ->
  (ast.Names field = [] /\ p = FieldMustHaveName)
  \/ determineType (ast.Type_ field) imp = Panic p.
Proof.
  unfold fieldItems. destruct (ast.Names field) as [|n rest] eqn:Hn.
  - intros H; left; split; [reflexivity | congruence].
  - destruct (fieldNames_Ok g field n rest Hn) as [key ->]. simpl.
    destruct (determineType (ast.Type_ field) imp); simpl; [discriminate|].
    intros H; right; congruence.
Qed.

Lemma fieldItems_Panic_type g node imp field p :
  determineType (ast.Type_ field) imp = Panic p ->
  exists p', fieldItems g node imp field = Panic p'.
Proof.
  intros H. unfold fieldItems. destruct (ast.Names field) as [|n rest] eqn:Hn.
  - now exists FieldMustHaveName.
  - destruct (fieldNames_Ok g field n rest Hn) as [key ->]. simpl.
    rewrite H. now exists p.
Qed.

Lemma specItems_Panic g imp node field :
  In field (structFields node) ->
  (exists p, fieldItems g node imp field = Panic p) ->
  exists p, specItems g imp node = Panic p.
Proof.
  unfold structFields, specItems. destruct (ast.TypeExpr node); try contradiction.
  intros Hin Hp. destruct (collect_Panic Fields _ field Hin Hp) as [q ->].
  now exists q.
Qed.

Lemma generate_Panic o f node field :
  In node (ast.typeSpecs f) -> In field (structFields node) ->
  (exists p, fieldItems (NewGenerator o) node (ast.Imports f) field = Panic p) ->
  exists p, generate o f = Panic p.
Proof.
  intros Hn Hf Hp. rewrite generate_items. unfold fileItems.
  destruct (collect_Panic (ast.typeSpecs f) (specItems (NewGenerator o) (ast.Imports f))
              node Hn (specItems_Panic _ _ _ _ Hf Hp)) as [q ->].
  now exists q.
Qed.

(** A panic of the generation is the panic of a field of a struct: of the
    check of its names, or of the translation of its type. *)
Lemma generate_Panic_inv o f p :
  generate o f = Panic p ->
  exists node field,
    In node (ast.typeSpecs f) /\ In field (structFields node)
    /\ ((ast.Names field = [] /\ p = FieldMustHaveName)
        \/ determineType (ast.Type_ field) (ast.Imports f) = Panic p).
Proof.
  rewrite generate_items. unfold fileItems.
  destruct (collect _ _) as [s|q] eqn:Hc; simpl; [discriminate|].
  intros H; inversion H; subst q.
  apply collect_Panic_inv in Hc as [node [Hn Hs]].
  unfold specItems in Hs. destruct (ast.TypeExpr node) eqn:He; try discriminate.
  destruct (collect Fields _) as [l|q] eqn:Hc; simpl in Hs; [discriminate|].
  inversion Hs; subst q.
  apply collect_Panic_inv in Hc as [field [Hf Hp]].
  exists node, field. split; [assumption|]. split.
  - unfold structFields. now rewrite He.
  - eapply fieldItems_Panic_inv; eassumption.
Qed.

(** C4.  In a file that imports [foo (quoted a/bar)] and then [(quoted b/bar)],
    the name [bar] stands for the second import: the Import Table finds
    [b/bar] under [bar], and under [foo] the first import.  [qualify] tests
    the last segment of the path of an import also when the import has an
    explicit alias, so it resolves [bar.T] by the first import: the accessor
    and the mutator of the field [B bar.T] are of the type [T] of the
    package [a/bar], and the generated file imports [a/bar]. *)
Theorem qualify_resolves_by_path_of_aliased_import :
  importTable (ast.Imports shadowedFile) "bar" = Some "b/bar"
  /\ importTable (ast.Imports shadowedFile) "foo" = Some "a/bar"
  /\ qualify (ast.Ident "bar") "T" (ast.Imports shadowedFile) = Ok ("T", "a/bar", None)
  /\ determineType (ast.Type_ shadowedField) (ast.Imports shadowedFile) =
     Ok (jen.Statement [jen.Qual "a/bar" "T"])
  /\ generate someOpts shadowedFile = Ok shadowedOutput
  /\ outline shadowedOutput =
     [PartialType "PartialS";
      Accessor "PartialS" "B" (Qualified "a/bar" "T") "B";
      Mutator "PartialS" "WithB" (Qualified "a/bar" "T") "B"]
  /\ jen.imports shadowedOutput = ["a/bar"].
Proof.
  repeat split.
Qed.

(** X20.  A qualified field type [alias.id] is resolved by the
    first import, in source order, whose path ends in the segment [alias] or
    whose explicit alias is [alias]; the output is [jen.Qual] of the path of
    this import and [id].  When no import matches, the translation panics
    (an [UnresolvedImport]) and the generation of the file returns no
    output. *)
Theorem qualified_type_resolution (o : GeneratorOpts) (f : ast.File)
  (node : ast.TypeSpec) (field : ast.Field) (alias id : string) :
  In node (ast.typeSpecs f) -> In field (structFields node) ->
  ast.Type_ field = ast.SelectorExpr (ast.Ident alias) id ->
  match find (importMatches alias) (ast.Imports f) with
  | Some imp =>
      determineType (ast.Type_ field) (ast.Imports f) =
        Ok (jen.Statement [jen.Qual (importPath imp) id])
      /\ importMatches alias imp = true
  | None =>
      determineType (ast.Type_ field) (ast.Imports f) =
        Panic (CouldNotQualify "could not find import")
      /\ kind (CouldNotQualify "could not find import") = Some UnresolvedImport
      /\ exists p, generate o f = Panic p
  end.
Proof.
  intros Hn Hf Ht. rewrite Ht, determineType_Qualified.
  destruct (find (importMatches alias) (ast.Imports f)) as [imp|] eqn:Hfind.
  - split; [reflexivity|]. now apply find_some in Hfind.
  - split; [reflexivity|]. split; [reflexivity|].
    apply (generate_Panic o f node field Hn Hf).
    eapply fieldItems_Panic_type.
    rewrite Ht, determineType_Qualified, Hfind. reflexivity.
Qed.

Lemma qualified_type_resolution_witness :
  determineType (ast.Type_ unresolvedField) (ast.Imports unresolvedFile) =
    Panic (CouldNotQualify "could not find import")
  /\ kind (CouldNotQualify "could not find import") = Some UnresolvedImport
  /\ exists p, generate someOpts unresolvedFile = Panic p.
Proof.
  apply (qualified_type_resolution someOpts unresolvedFile unresolvedStruct
           unresolvedField "bar" "B").
  - simpl. left. reflexivity.
  - simpl. left. reflexivity.
  - reflexivity.
Defined.

(** C8.  A field without a name makes [AccessFunc], and with it the round of
    the loop over the fields, panic with the message of a missing field
    name; the generation of a file with such a field in a struct returns no
    output, and its panic is this one unless the translation of a field type
    panicked. *)
Theorem nameless_field_aborts (o : GeneratorOpts) (f : ast.File)
  (node : ast.TypeSpec) (field : ast.Field) :
  In node (ast.typeSpecs f) -> In field (structFields node) ->
  ast.Names field = [] ->
  (forall typ imp g, AccessFunc typ field imp g = Panic FieldMustHaveName)
  /\ (forall typ imp g, fieldFuncs typ imp field g = Panic FieldMustHaveName)
  /\ kind FieldMustHaveName = Some MissingFieldName
  /\ exists p, generate o f = Panic p
       /\ (p = FieldMustHaveName
           \/ exists node' field',
               In node' (ast.typeSpecs f) /\ In field' (structFields node')
               /\ determineType (ast.Type_ field') (ast.Imports f) = Panic p).
Proof.
  intros Hn Hf Hnames.
  assert (HA : forall typ imp g, AccessFunc typ field imp g = Panic FieldMustHaveName)
    by (intros; unfold AccessFunc; now rewrite Hnames).
  split; [exact HA|]. split.
  { intros; unfold fieldFuncs. now rewrite HA. }
  split; [reflexivity|].
  destruct (generate_Panic o f node field Hn Hf) as [p Hp].
  { exists FieldMustHaveName. unfold fieldItems. now rewrite Hnames. }
  exists p. split; [exact Hp|].
  destruct (generate_Panic_inv o f p Hp) as [node' [field' [Hn' [Hf' [[_ ->]|Ht]]]]].
  - now left.
  - right. now exists node', field'.
Qed.

Lemma nameless_field_aborts_witness :
  (forall typ imp g, AccessFunc typ embeddedField imp g = Panic FieldMustHaveName)
  /\ (forall typ imp g, fieldFuncs typ imp embeddedField g = Panic FieldMustHaveName)
  /\ kind FieldMustHaveName = Some MissingFieldName
  /\ exists p, generate someOpts embeddedFile = Panic p
       /\ (p = FieldMustHaveName
           \/ exists node' field',
               In node' (ast.typeSpecs embeddedFile) /\ In field' (structFields node')
               /\ determineType (ast.Type_ field') (ast.Imports embeddedFile) = Panic p).
Proof.
  apply (nameless_field_aborts someOpts embeddedFile embeddedStruct embeddedField).
  - simpl. left. reflexivity.
  - simpl. right. left. reflexivity.
  - reflexivity.
Defined.

(** ** The members of the generated unit *)

Lemma TypeExpr_eqb_refl t : TypeExpr_eqb t t = true.
Proof.
  induction t; simpl; rewrite ?String.eqb_refl, ?IHt, ?IHt1, ?IHt2; reflexivity.
Qed.

Lemma members_app a b : members (a ++ b) = members a ++ members b.
Proof.
  induction a as [|c a IH]; simpl; [reflexivity|].
  destruct (member c); simpl; now rewrite IH.
Qed.

Lemma member_accessorCode recv fieldName fieldKey c t :
  typeOf c = Some t ->
  member (accessorCode recv fieldName fieldKey c) = Some (Accessor recv fieldName t fieldKey).
Proof.
  intros H. unfold accessorCode, member. rewrite H, TypeExpr_eqb_refl. reflexivity.
Qed.

Lemma member_mutatorCode recv fieldName fieldKey c t :
  typeOf c = Some t ->
  member (mutatorCode recv fieldName fieldKey c) =
  Some (Mutator recv ("With" ++ fieldName) t fieldKey).
Proof.
  intros H. unfold mutatorCode, member. rewrite H, !String.eqb_refl. reflexivity.
Qed.

(** A field that is generated contributes its accessor and then its
    mutator, both of the translated type and on the key of [fieldNames]. *)
Lemma fieldItems_members g node imp field a :
  fieldItems g node imp field = Ok a ->
  exists key c t,
    fieldNames g field = Ok (firstName field, key)
    /\ determineType (ast.Type_ field) imp = Ok c /\ typeOf c = Some t
    /\ members a =
       [Accessor (partialName g node) (firstName field) t key;
        Mutator (partialName g node) ("With" ++ firstName field) t key].
Proof.
  unfold fieldItems, firstName.
  destruct (ast.Names field) as [|n rest] eqn:Hn; [discriminate|].
  destruct (fieldNames_Ok g field n rest Hn) as [key Hk]. rewrite Hk. simpl.
  destruct (determineType (ast.Type_ field) imp) as [c|p] eqn:Hc; simpl; [|discriminate].
  intros H; inversion H; subst a; clear H.
  destruct (determineType_typeOf _ _ _ Hc) as [t Ht].
  exists key, c, t. repeat split; try assumption.
  cbn [members]. rewrite (member_accessorCode _ _ _ c t Ht).
  rewrite (member_mutatorCode _ _ _ c t Ht). reflexivity.
Qed.

Lemma collect_labels {A : Type} (l : list A) (f : A -> result (list jen.Code))
  (lab : A -> list Label) s :
  collect l f = Ok s ->
  (forall x a, In x l -> f x = Ok a -> map label (members a) = lab x) ->
  map label (members s) = flat_map lab l.
Proof.
  revert s; induction l as [|x l IH]; simpl; intros s H Hlab.
  - inversion H; reflexivity.
  - apply bind_Ok in H as [a [Ha H]]. apply bind_Ok in H as [b [Hb H]].
    inversion H; subst s. rewrite members_app, map_app.
    rewrite (Hlab x a (or_introl eq_refl) Ha).
    rewrite (IH b Hb); [reflexivity|].
    intros y c Hy; apply Hlab; now right.
Qed.

Lemma specItems_labels g imp node a :
  specItems g imp node = Ok a ->
  map label (members a) =
  if isStruct node then recordLabels (TypePrefix (opts g)) node else [].
Proof.
  unfold specItems, isStruct, recordLabels, structFields.
  destruct (ast.TypeExpr node); intros H; try (inversion H; reflexivity).
  apply bind_Ok in H as [l [Hl H]]. inversion H; subst a; clear H.
  cbn [members member map label]. unfold partialName. f_equal.
  apply (collect_labels _ _ _ _ Hl).
  intros x b _ Hb. apply fieldItems_members in Hb as [key [c [t [_ [_ [_ Hm]]]]]].
  rewrite Hm. reflexivity.
Qed.

Lemma flat_map_filter {A B : Type} (p : A -> bool) (h : A -> list B) (l : list A) :
  flat_map (fun x => if p x then h x else []) l = flat_map h (filter p l).
Proof.
  induction l as [|x l IH]; simpl; [reflexivity|].
  destruct (p x); simpl; now rewrite IH.
Qed.

(** The members of a generated file are the members of the struct type
    declarations of the source file, in order. *)
Lemma generate_labels o f out :
  generate o f = Ok out ->
  map label (outline out) =
  flat_map (recordLabels (TypePrefix o)) (filter isStruct (ast.typeSpecs f)).
Proof.
  rewrite generate_items. intros H. apply bind_Ok in H as [s [Hs H]].
  inversion H; subst out; clear H. unfold outline; simpl.
  rewrite <- flat_map_filter.
  apply (collect_labels _ _ _ _ Hs).
  intros x a _ Ha. now apply specItems_labels in Ha.
Qed.

Lemma collect_Forall {A : Type} (P : jen.Code -> Prop) (l : list A)
  (f : A -> result (list jen.Code)) s :
  collect l f = Ok s ->
  (forall x a, In x l -> f x = Ok a -> Forall P a) -> Forall P s.
Proof.
  revert s; induction l as [|x l IH]; simpl; intros s H HP.
  - inversion H; constructor.
  - apply bind_Ok in H as [a [Ha H]]. apply bind_Ok in H as [b [Hb H]].
    inversion H; subst s. apply Forall_app. split.
    + apply (HP x a); auto.
    + apply (IH b Hb). intros y c Hy. apply HP. now right.
Qed.

(** Every statement of a generated file is a comment, a blank line or a
    member. *)
Lemma generate_classified o f out :
  generate o f = Ok out ->
  Forall (fun c => trivia c = true \/ exists m, member c = Some m) (jen.items out).
Proof.
  rewrite generate_items. intros H. apply bind_Ok in H as [s [Hs H]].
  inversion H; subst out; clear H. simpl.
  apply (collect_Forall _ _ _ _ Hs). intros node a _ Ha.
  unfold specItems in Ha.
  destruct (ast.TypeExpr node); try (inversion Ha; constructor).
  apply bind_Ok in Ha as [l [Hl Ha]]. inversion Ha; subst a; clear Ha.
  constructor; [now left|]. constructor; [right; eexists; reflexivity|].
  apply (collect_Forall _ _ _ _ Hl). intros field b _ Hb.
  unfold fieldItems in Hb. destruct (ast.Names field); [discriminate|].
  apply bind_Ok in Hb as [names [_ Hb]]. apply bind_Ok in Hb as [c [Hc Hb]].
  inversion Hb; subst b; clear Hb.
  destruct (determineType_typeOf _ _ _ Hc) as [t Ht].
  constructor; [now left|].
  constructor;
    [right; eexists;
     exact (member_accessorCode (partialName (NewGenerator o) node) (fst names)
              (snd names) c t Ht)|].
  constructor; [now left|]. constructor; [now left|].
  constructor;
    [right; eexists;
     exact (member_mutatorCode (partialName (NewGenerator o) node) (fst names)
              (snd names) c t Ht)|].
  constructor; [now left | constructor].
Qed.

Lemma length_flat_map_sum {A B : Type} (h : A -> list B) (l : list A) :
  length (flat_map h l) = list_sum (map (fun x => length (h x)) l).
Proof.
  induction l as [|x l IH]; simpl; [reflexivity|].
  now rewrite length_app, IH.
Qed.

(** The declaration [type P struct { A, B int }] has the two fields [A] and
    [B]; the unit generated for it has the type definition and one pair
    only, the one of [A]. *)
Lemma two_fields_one_pair :
  flat_map ast.Names (structFields pairStruct) = ["A"; "B"]
  /\ generate someOpts pairFile = Ok pairOutput
  /\ outline pairOutput =
     [PartialType "PartialP";
      Accessor "PartialP" "A" (Named "int") "A";
      Mutator "PartialP" "WithA" (Named "int") "A"]
  /\ length (outline pairOutput) <>
     1 + 2 * length (flat_map ast.Names (structFields pairStruct)).
Proof.
  repeat split. vm_compute. discriminate.
Qed.

(** C7, amended.  In a generated unit every record declaration, in source
    order, contributes its type definition followed by the accessor and the
    mutator of each of its field entries, in the order of the entries and
    under the first name of the entry: one type definition and [N] pairs
    for [N] field entries.  The unit holds nothing else but comments and
    blank lines. *)
Theorem record_members_in_order (o : GeneratorOpts) (f : ast.File) (out : jen.File) :
  generate o f = Ok out ->
  map label (outline out) =
    flat_map (fun node =>
                TypeDefinition (TypePrefix o ++ ast.TypeName node)
                :: flat_map (fun field => [AccessorOf (firstName field);
                                           MutatorOf ("With" ++ firstName field)])
                     (structFields node))
      (filter isStruct (ast.typeSpecs f))
  /\ Forall (fun c => trivia c = true \/ exists m, member c = Some m) (jen.items out)
  /\ length (outline out) =
     list_sum (map (fun node => 1 + 2 * length (structFields node))
                 (filter isStruct (ast.typeSpecs f))).
Proof.
  intros H. split; [exact (generate_labels o f out H)|].
  split; [exact (generate_classified o f out H)|].
  rewrite <- (length_map label), (generate_labels o f out H), length_flat_map_sum.
  f_equal. apply map_ext. intros node. unfold recordLabels. simpl. f_equal.
  induction (structFields node) as [|x l IH]; simpl; [reflexivity|].
  rewrite IH. lia.
Qed.

Lemma record_members_in_order_witness :
  map label (outline userOutput) =
    [TypeDefinition "PartialUser"; AccessorOf "Name"; MutatorOf "WithName";
     AccessorOf "Age"; MutatorOf "WithAge"]
  /\ Forall (fun c => trivia c = true \/ exists m, member c = Some m)
       (jen.items userOutput)
  /\ length (outline userOutput) = 5.
Proof.
  apply (record_members_in_order userOpts userFile userOutput).
  reflexivity.
Defined.

(** The round of the loop over the fields, for a field with a name and a
    type that is translated: it appends the accessor and the mutator of the
    first name. *)
Lemma fieldFuncs_members node imp field g n rest c :
  ast.Names field = n :: rest ->
  determineType (ast.Type_ field) imp = Ok c ->
  exists g' t key,
    fieldFuncs node imp field g = Ok g'
    /\ fieldNames g field = Ok (n, key)
    /\ typeOf c = Some t
    /\ members (jen.items (file g')) =
       members (jen.items (file g))
       ++ [Accessor (partialName g node) n t key;
           Mutator (partialName g node) ("With" ++ n) t key].
Proof.
  intros Hn Hc. rewrite fieldFuncs_items.
  destruct (fieldItems g node imp field) as [a|p] eqn:Ha.
  - apply fieldItems_members in Ha as [key [c' [t [Hk [Hc' [Ht Hm]]]]]].
    unfold firstName in *. rewrite Hn in *. simpl in *.
    rewrite Hc in Hc'. inversion Hc'; subst c'.
    exists (emits a g), t, key. repeat split; try assumption.
    unfold emits; simpl. now rewrite members_app, Hm.
  - apply fieldItems_Panic_inv in Ha as [[Ha _]|Ha]; congruence.
Qed.

(** C9.  A field entry that declares several names, of a type that is
    translated, is generated without error as the entry of its first name
    alone: the round of the loop over the fields appends one accessor and
    one mutator, named after the first name and on the key of the first name
    (the first name itself when the entry has no tag), and leaves the
    generator in the state the entry of the first name alone leaves it in;
    the other names add nothing. *)
Theorem several_names_first_only (node : ast.TypeSpec) (imp : list ast.ImportSpec)
  (n : string) (rest : list string) (typ : ast.Expr) (tag : option string)
  (g : Generator) (c : jen.Code) :
  determineType typ imp = Ok c ->
  exists g' t key,
    fieldFuncs node imp (ast.mkField (n :: rest) typ tag) g = Ok g'
    /\ fieldNames g (ast.mkField (n :: rest) typ tag) = Ok (n, key)
    /\ (tag = None -> key = n)
    /\ typeOf c = Some t
    /\ members (jen.items (file g')) =
       members (jen.items (file g))
       ++ [Accessor (partialName g node) n t key;
           Mutator (partialName g node) ("With" ++ n) t key]
    /\ fieldFuncs node imp (ast.mkField [n] typ tag) g = Ok g'.
Proof.
  intros Hc.
  destruct (fieldFuncs_members node imp (ast.mkField (n :: rest) typ tag) g n rest c
              eq_refl Hc) as [g' [t [key [Hf [Hk [Ht Hm]]]]]].
  exists g', t, key. repeat split; try assumption.
  intros ->. unfold fieldNames in Hk; simpl in Hk.
  destruct (negb _) in Hk; congruence.
Qed.

Lemma several_names_first_only_witness :
  exists g' t key,
    fieldFuncs pairStruct [] (ast.mkField ["A"; "B"] (ast.Ident "int") None)
      (NewGenerator someOpts) = Ok g'
    /\ fieldNames (NewGenerator someOpts) (ast.mkField ["A"; "B"] (ast.Ident "int") None)
       = Ok ("A", key)
    /\ (@None string = None -> key = "A")
    /\ typeOf (jen.Statement [jen.Id "int"]) = Some t
    /\ members (jen.items (file g')) =
       members (jen.items (file (NewGenerator someOpts)))
       ++ [Accessor (partialName (NewGenerator someOpts) pairStruct) "A" t key;
           Mutator (partialName (NewGenerator someOpts) pairStruct) ("With" ++ "A") t key]
    /\ fieldFuncs pairStruct [] (ast.mkField ["A"] (ast.Ident "int") None)
         (NewGenerator someOpts) = Ok g'.
Proof.
  apply (several_names_first_only pairStruct [] "A" ["B"] (ast.Ident "int") None
           (NewGenerator someOpts) (jen.Statement [jen.Id "int"])).
  reflexivity.
Defined.

(** C10.  The length of an array type is not read.  When [T] is
    translated, [[N]T] is translated into the index token without length
    followed by the translation of [T], which renders a sequence of the
    element type, and so is [[]T]; the round of the loop over the fields
    gives a field of type [[N]T] an accessor and a mutator of the sequence
    type, and leaves the generator in the state a field of type [[]T]
    leaves it in. *)
Theorem array_length_discarded (len elt : ast.Expr) (imports : list ast.ImportSpec)
  (c : jen.Code) :
  determineType elt imports = Ok c ->
  determineType (ast.ArrayType (Some len) elt) imports =
    Ok (jen.Statement [jen.Index []; c])
  /\ determineType (ast.ArrayType None elt) imports =
     Ok (jen.Statement [jen.Index []; c])
  /\ exists t,
      typeOf c = Some t
      /\ typeOf (jen.Statement [jen.Index []; c]) = Some (Sequence t)
      /\ forall node n rest tag g,
          exists g' key,
            fieldFuncs node imports
              (ast.mkField (n :: rest) (ast.ArrayType (Some len) elt) tag) g = Ok g'
            /\ fieldFuncs node imports
                 (ast.mkField (n :: rest) (ast.ArrayType None elt) tag) g = Ok g'
            /\ members (jen.items (file g')) =
               members (jen.items (file g))
               ++ [Accessor (partialName g node) n (Sequence t) key;
                   Mutator (partialName g node) ("With" ++ n) (Sequence t) key].
Proof.
  intros Hc.
  assert (Ha : forall l, determineType (ast.ArrayType l elt) imports =
                         Ok (jen.Statement [jen.Index []; c])).
  { intros l. simpl. now rewrite Hc. }
  split; [apply Ha|]. split; [apply Ha|].
  destruct (determineType_typeOf _ _ _ Hc) as [t Ht].
  exists t. split; [exact Ht|]. split; [simpl; now rewrite Ht|].
  intros node n rest tag g.
  destruct (fieldFuncs_members node imports
              (ast.mkField (n :: rest) (ast.ArrayType (Some len) elt) tag) g n rest
              (jen.Statement [jen.Index []; c]) eq_refl (Ha (Some len)))
    as [g' [t' [key [Hf [Hk [Ht' Hm]]]]]].
  simpl in Ht'. rewrite Ht in Ht'. inversion Ht'; subst t'.
  exists g', key. split; [exact Hf|]. split; [exact Hf|]. exact Hm.
Qed.

Lemma array_length_discarded_witness :
  determineType (ast.ArrayType (Some (ast.BasicLit "4")) (ast.Ident "int")) [] =
    Ok (jen.Statement [jen.Index []; jen.Statement [jen.Id "int"]])
  /\ determineType (ast.ArrayType None (ast.Ident "int")) [] =
     Ok (jen.Statement [jen.Index []; jen.Statement [jen.Id "int"]])
  /\ exists t,
      typeOf (jen.Statement [jen.Id "int"]) = Some t
      /\ typeOf (jen.Statement [jen.Index []; jen.Statement [jen.Id "int"]])
         = Some (Sequence t)
      /\ forall node n rest tag g,
          exists g' key,
            fieldFuncs node []
              (ast.mkField (n :: rest)
                 (ast.ArrayType (Some (ast.BasicLit "4")) (ast.Ident "int")) tag) g = Ok g'
            /\ fieldFuncs node []
                 (ast.mkField (n :: rest) (ast.ArrayType None (ast.Ident "int")) tag) g
               = Ok g'
            /\ members (jen.items (file g')) =
               members (jen.items (file g))
               ++ [Accessor (partialName g node) n (Sequence t) key;
                   Mutator (partialName g node) ("With" ++ n) (Sequence t) key].
Proof.
  apply (array_length_discarded (ast.BasicLit "4") (ast.Ident "int") []
           (jen.Statement [jen.Id "int"])).
  reflexivity.
Defined.

(** ** The declarations that generate *)

Lemma collect_filter {A : Type} (p : A -> bool) (f : A -> result (list jen.Code))
  (l : list A) :
  (forall x, p x = false -> f x = Ok []) -> collect (filter p l) f = collect l f.
Proof.
  intros Hp; induction l as [|x l IH]; simpl; [reflexivity|].
  destruct (p x) eqn:E; simpl; rewrite IH; [reflexivity|].
  rewrite (Hp x E). simpl. now destruct (collect l f).
Qed.

Lemma specItems_not_struct g imp node : isStruct node = false -> specItems g imp node = Ok [].
Proof.
  unfold isStruct, specItems. now destruct (ast.TypeExpr node).
Qed.

Lemma typeSpecs_structsOnly f :
  ast.typeSpecs (structsOnly f) = filter isStruct (ast.typeSpecs f).
Proof.
  unfold ast.typeSpecs at 1, structsOnly; simpl. rewrite app_nil_r.
  induction (filter isStruct (ast.typeSpecs f)) as [|x l IH]; simpl; [reflexivity|].
  now rewrite IH.
Qed.

Lemma generate_structsOnly o f : generate o f = generate o (structsOnly f).
Proof.
  rewrite !generate_items. unfold fileItems. rewrite typeSpecs_structsOnly.
  change (ast.Imports (structsOnly f)) with (ast.Imports f).
  rewrite collect_filter; [reflexivity|].
  intros x; apply specItems_not_struct.
Qed.

Lemma topLevelTypeSpecs_incl f : incl (topLevelTypeSpecs f) (ast.typeSpecs f).
Proof.
  unfold topLevelTypeSpecs, ast.typeSpecs.
  induction (ast.Decls f) as [|d l IH]; simpl; [apply incl_refl|].
  apply incl_app.
  - apply incl_appl. destruct d; [apply incl_refl | apply incl_nil_l].
  - now apply incl_appr.
Qed.

Lemma topLevelRecords_incl f :
  incl (topLevelRecords f) (filter isStruct (ast.typeSpecs f)).
Proof.
  intros x Hx. unfold topLevelRecords in Hx.
  apply filter_In in Hx as [Hx Hs]. apply filter_In. split; [|exact Hs].
  now apply topLevelTypeSpecs_incl.
Qed.

Lemma TypeDefinition_In prefix name (l : list ast.TypeSpec) :
  In (TypeDefinition name) (flat_map (recordLabels prefix) l) <->
  exists node, In node l /\ name = (prefix ++ ast.TypeName node)%string.
Proof.
  rewrite in_flat_map. split.
  - intros [node [Hn [H|H]]].
    + exists node. split; [assumption | congruence].
    + apply in_flat_map in H as [field [_ [H|[H|[]]]]]; discriminate.
  - intros [node [Hn ->]]. exists node. split; [assumption | now left].
Qed.

(** A file without top-level record declaration can generate members: the
    struct declared in the body of a function does. *)
Lemma local_struct_generates :
  topLevelRecords localStructFile = []
  /\ generate someOpts localStructFile = Ok localOutput
  /\ outline localOutput =
     [PartialType "PartialT"; Accessor "PartialT" "A" (Named "int") "A";
      Mutator "PartialT" "WithA" (Named "int") "A"].
Proof.
  repeat split.
Qed.

(** C6, amended.  The generation only reads the type declarations whose
    type is a struct, at the top level of the file and below it (in function
    bodies): with every other declaration removed the generation returns the
    same file or the same panic.  The top-level records are among them, and
    the type definitions of the generated unit are those of these
    declarations. *)
Theorem struct_declarations_generate (o : GeneratorOpts) (f : ast.File) :
  generate o f = generate o (structsOnly f)
  /\ incl (topLevelRecords f) (filter isStruct (ast.typeSpecs f))
  /\ (forall out, generate o f = Ok out ->
      forall name,
        In (TypeDefinition name) (map label (outline out)) <->
        exists node, In node (filter isStruct (ast.typeSpecs f))
                     /\ name = (TypePrefix o ++ ast.TypeName node)%string).
Proof.
  split; [apply generate_structsOnly|]. split; [apply topLevelRecords_incl|].
  intros out H name. rewrite (generate_labels o f out H). apply TypeDefinition_In.
Qed.

Lemma struct_declarations_generate_witness :
  In (TypeDefinition "PartialT") (map label (outline localOutput)) <->
  exists node, In node (filter isStruct (ast.typeSpecs localStructFile))
               /\ "PartialT" = (TypePrefix someOpts ++ ast.TypeName node)%string.
Proof.
  apply (proj2 (proj2 (struct_declarations_generate someOpts localStructFile))
           localOutput).
  reflexivity.
Defined.

(** ** Imports *)



Lemma Import_hints i g :
  jen.hints (file (Import i g)) =
  jen.map_set (importPath i) (importHint i) (jen.hints (file g)).
Proof.
  unfold Import, importHint, importPath. now destruct (ast.ImportName i).
Qed.










Lemma flat_map_incl {A B : Type} (f : A -> list B) (l l' : list A) :
  incl l l' -> incl (flat_map f l) (flat_map f l').
Proof.
  intros H y Hy. apply in_flat_map in Hy as [x [Hx Hy]].
  apply in_flat_map. exists x. split; [now apply H | exact Hy].
Qed.






(** ** Struct tags and keys *)

Lemma skip_spaces_length tag :
  String.length (reflect.skip_spaces tag) <= String.length tag.
Proof.
  induction tag as [|c tag IH]; simpl; [lia|].
  destruct (Ascii.eqb c " "); simpl; lia.
Qed.

Lemma scan_key_length tag k r :
  reflect.scan_key tag = (k, r) ->
  String.length tag = String.length k + String.length r.
Proof.
  revert k r; induction tag as [|c tag IH]; simpl; intros k r H.
  - inversion H; reflexivity.
  - destruct (reflect.key_byte c).
    + destruct (reflect.scan_key tag) as [k' r'] eqn:E. inversion H; subst.
      simpl. rewrite (IH k' r eq_refl). reflexivity.
    + inversion H; subst. reflexivity.
Qed.

Lemma scan_quoted_length tag :
  forall v r, reflect.scan_quoted tag = Some (v, r) ->
  String.length r < String.length tag.
Proof.
  assert (H : forall n tag, String.length tag <= n ->
              forall v r, reflect.scan_quoted tag = Some (v, r) ->
              String.length r < String.length tag).
  { induction n as [|n IH]; intros t Hn v r Hs.
    - destruct t; [discriminate | simpl in Hn; lia].
    - destruct t as [|c t]; [discriminate|]. simpl in Hs, Hn.
      destruct (Ascii.eqb c dquote).
      + inversion Hs; subst. simpl. lia.
      + destruct (Ascii.eqb c bslash).
        * destruct t as [|d t]; [discriminate|].
          destruct (reflect.scan_quoted t) as [[v' r']|] eqn:E; [|discriminate].
          inversion Hs; subst. simpl in Hn.
          assert (String.length r < String.length t) by (apply (IH t ltac:(lia) v' r E)).
          simpl. lia.
        * destruct (reflect.scan_quoted t) as [[v' r']|] eqn:E; [|discriminate].
          inversion Hs; subst.
          assert (String.length r < String.length t) by (apply (IH t ltac:(lia) v' r E)).
          simpl. lia. }
  intros v r. apply (H (String.length tag)). lia.
Qed.

(** The fuel of [Lookup] is enough: more fuel gives the same result. *)
Lemma Lookup_loop_fuel key :
  forall n m tag, String.length tag <= n -> String.length tag <= m ->
    reflect.Lookup_loop n tag key = reflect.Lookup_loop m tag key.
Proof.
  induction n as [|n IH]; intros m tag Hn Hm.
  - destruct tag; [|simpl in Hn; lia]. destruct m; reflexivity.
  - destruct m as [|m].
    + destruct tag; [reflexivity | simpl in Hm; lia].
    + cbn [reflect.Lookup_loop].
      pose proof (skip_spaces_length tag) as H1.
      destruct (reflect.skip_spaces tag) as [|a tag1] eqn:E1; [reflexivity|].
      destruct (reflect.scan_key (String a tag1)) as [name rest] eqn:E2.
      apply scan_key_length in E2.
      destruct name as [|x name]; [reflexivity|].
      destruct rest as [|colon [|quote tag2]]; try reflexivity.
      destruct (Ascii.eqb colon ":" && Ascii.eqb quote dquote); [|reflexivity].
      destruct (reflect.scan_quoted tag2) as [[v tag3]|] eqn:E3; [|reflexivity].
      apply scan_quoted_length in E3.
      destruct (String.eqb key (String x name)); [reflexivity|].
      simpl in E2, H1. apply IH; lia.
Qed.


(** ** The fuel of [strconv.Unquote] *)

Lemma drop_length n s : String.length (utf8.drop n s) = String.length s - n.
Proof.
  revert s; induction n as [|n IH]; intros s; simpl; [lia|].
  destruct s; simpl; [reflexivity | apply IH].
Qed.

Lemma DecodeRune_size c s :
  1 <= snd (utf8.DecodeRuneInString (String c s)).
Proof.
  unfold utf8.DecodeRuneInString.
  repeat match goal with
         | |- context [if ?b then _ else _] => destruct b
         end; simpl; lia.
Qed.

Lemma hexDigits_length n : forall s v w tail,
  strconv.hexDigits n s v = Some (w, tail) -> String.length tail <= String.length s.
Proof.
  induction n as [|n IH]; simpl; intros s v w tail H.
  - inversion H; subst. lia.
  - destruct s as [|c s]; [discriminate|].
    destruct (strconv.unhex c); [|discriminate].
    apply IH in H. simpl. lia.
Qed.

Lemma UnquoteChar_shorter s quote r mb tail :
  strconv.UnquoteChar s quote = Some (r, mb, tail) ->
  String.length tail < String.length s.
Proof.
  unfold strconv.UnquoteChar. destruct s as [|c s1]; [discriminate|].
  destruct (_ && _); [discriminate|].
  destruct (128 <=? N_of_ascii c)%N.
  { pose proof (DecodeRune_size c s1) as Hs.
    destruct (utf8.DecodeRuneInString (String c s1)) as [r' size].
    intros H; inversion H; subst. rewrite drop_length.
    cbn [snd String.length] in *. lia. }
  destruct (negb (Ascii.eqb c bslash)).
  { intros H; inversion H; subst. simpl. lia. }
  destruct s1 as [|e s2]; [discriminate|].
  destruct (Ascii.eqb e "x").
  { destruct (strconv.hexDigits 2 s2 0) as [[v t]|] eqn:E; [|discriminate].
    intros H; inversion H; subst. apply hexDigits_length in E. simpl. lia. }
  destruct (Ascii.eqb e "u" || Ascii.eqb e "U").
  { destruct (strconv.hexDigits _ s2 0) as [[v t]|] eqn:E; [|discriminate].
    destruct (utf8.ValidRune v); [|discriminate].
    intros H; inversion H; subst. apply hexDigits_length in E. simpl. lia. }
  destruct (_ && _).
  { unfold strconv.octalDigits. destruct s2 as [|c1 [|c2 s']]; try discriminate.
    destruct (_ && _); [|discriminate].
    destruct (255 <? _)%N; [discriminate|].
    intros H; inversion H; subst. simpl. lia. }
  destruct (Ascii.eqb e strconv.squote || Ascii.eqb e dquote).
  { destruct (Ascii.eqb e quote); [|discriminate].
    intros H; inversion H; subst. simpl. lia. }
  destruct (strconv.escape e); [|discriminate].
  intros H; inversion H; subst. simpl. lia.
Qed.

(** The fuel of [unquote] is enough: more fuel gives the same result. *)
Lemma unquote_chars_fuel quote :
  forall n m s, String.length s <= n -> String.length s <= m ->
    strconv.unquote_chars n quote s = strconv.unquote_chars m quote s.
Proof.
  induction n as [|n IH]; intros m s Hn Hm.
  - destruct s; [now destruct m | simpl in Hn; lia].
  - destruct m as [|m]; [destruct s; [reflexivity | simpl in Hm; lia]|].
    destruct s as [|c s]; [reflexivity|].
    cbn [strconv.unquote_chars].
    destruct (Ascii.eqb c quote); [reflexivity|].
    destruct (strconv.UnquoteChar (String c s) quote) as [[[r mb] tail]|] eqn:E;
      [|reflexivity].
    apply UnquoteChar_shorter in E.
    destruct (Ascii.eqb c strconv.newline); [reflexivity|].
    destruct (Ascii.eqb quote strconv.squote); [reflexivity|].
    rewrite (IH m tail); [reflexivity | simpl in *; lia | simpl in *; lia].
Qed.

Lemma Index_range s c : strings.Index s c = (-1)%Z \/ (0 <= strings.Index s c)%Z.
Proof.
  induction s as [|d s IH]; simpl; [now left|].
  destruct (Ascii.eqb d c); [right; lia|].
  destruct (Z.eqb_spec (strings.Index s c) (-1)); [now left | right; lia].
Qed.

(** The slice up to the index of the first comma is the value truncated at
    its first comma. *)
Lemma slice_beforeComma tag :
  (if negb (strings.Index tag "," =? -1)%Z
   then strings.slice_to tag (strings.Index tag ",") else tag) = beforeComma tag.
Proof.
  induction tag as [|c tag IH]; [reflexivity|].
  cbn [strings.Index beforeComma]. destruct (Ascii.eqb c ","); [reflexivity|].
  destruct (Z.eqb_spec (strings.Index tag ",") (-1)) as [E|E].
  - simpl in IH |- *. now rewrite <- IH.
  - destruct (Index_range tag ",") as [H|H]; [contradiction|].
    destruct (Z.eqb_spec (strings.Index tag "," + 1) (-1)) as [E'|E']; [lia|].
    cbn [negb] in IH |- *. unfold strings.slice_to in *.
    replace (Z.to_nat (strings.Index tag "," + 1)) with (S (Z.to_nat (strings.Index tag ",")))
      by lia.
    cbn [substring]. now rewrite IH.
Qed.

Lemma scan_key_app k c r :
  allBytes reflect.key_byte k = true -> reflect.key_byte c = false ->
  reflect.scan_key (k ++ String c r) = (k, String c r).
Proof.
  intros Hk Hc. induction k as [|x k IH]; simpl.
  - now rewrite Hc.
  - simpl in Hk. apply andb_true_iff in Hk as [Hx Hk].
    rewrite Hx, (IH Hk). reflexivity.
Qed.

Lemma scan_quoted_plain v r :
  allBytes plainByte v = true ->
  reflect.scan_quoted (v ++ String dquote r) = Some (v, r).
Proof.
  intros Hv. induction v as [|x v IH]; [reflexivity|].
  simpl in Hv. apply andb_true_iff in Hv as [Hx Hv].
  unfold plainByte in Hx. apply andb_true_iff in Hx as [Hq Hb].
  apply negb_true_iff in Hq, Hb.
  cbn [append reflect.scan_quoted]. rewrite Hq, Hb, (IH Hv). reflexivity.
Qed.

Lemma eqb_cons_self c s : String.eqb s (String c s) = false.
Proof.
  apply String.eqb_neq. intros H.
  apply (f_equal String.length) in H. simpl in H. lia.
Qed.

(** The entry that stands first in a raw tag literal is never found under
    its key: the scan reads the back quote as the first byte of the key. *)
Lemma Get_first_entry (T v : string) :
  allBytes reflect.key_byte T = true -> allBytes plainByte v = true ->
  reflect.Get ("`" ++ T ++ ":" ++ quoted v ++ "`") T = EmptyString.
Proof.
  intros HT Hv. unfold reflect.Get, reflect.Lookup, quoted.
  cbn [append]. rewrite append_assoc. cbn [append String.length reflect.Lookup_loop].
  change (reflect.skip_spaces (String "`" ?x)) with (String "`" x).
  cbn [reflect.skip_spaces]. change (Ascii.eqb "`" " ") with false. cbv iota.
  cbn [reflect.scan_key]. change (reflect.key_byte "`") with true. cbv iota.
  rewrite (scan_key_app T ":" _ HT eq_refl).
  change (Ascii.eqb ":" ":" && Ascii.eqb dquote dquote) with true. cbv iota.
  rewrite (scan_quoted_plain v "`" Hv), eqb_cons_self.
  rewrite (Lookup_loop_fuel T _ 1 "`"); [reflexivity | | simpl; lia].
  clear. induction T as [|x T IH]; simpl; lia.
Qed.


(** C2.  For the record [User] of the scenario the generated unit defines
    [PartialUser], and for each field an accessor and a mutator of the type
    of the field, the mutators named [WithName] and [WithAge].  The field
    [Name] carries the entry [name] under [particle], but [Get] on the
    literal with its back quotes finds nothing, and the accessor and the
    mutator of [Name] use the key [Name]. *)
Theorem generate_User :
  generate userOpts userFile = Ok userOutput
  /\ outline userOutput =
     [PartialType "PartialUser";
      Accessor "PartialUser" "Name" (Named "string") "Name";
      Mutator "PartialUser" "WithName" (Named "string") "Name";
      Accessor "PartialUser" "Age" (Named "int") "Age";
      Mutator "PartialUser" "WithAge" (Named "int") "Age"]
  /\ tagEntry nameField "particle" = Some "name"
  /\ ast.Tag nameField = Some ("`particle:" ++ quoted "name" ++ "`")%string
  /\ reflect.Get ("`particle:" ++ quoted "name" ++ "`") "particle" = EmptyString.
Proof.
  repeat split.
Qed.

(** * Further properties of the generator *)

(** ** When the generation succeeds, and how it fails *)

Lemma existsb_find {A : Type} (p : A -> bool) (l : list A) :
  existsb p l = true <-> exists x, find p l = Some x.
Proof.
  induction l as [|y l IH]; simpl.
  - split; [discriminate | intros [x H]; discriminate].
  - destruct (p y); simpl; [split; eauto | exact IH].
Qed.

Lemma determineType_translatable e imp :
  translatable imp e = true <-> exists c, determineType e imp = Ok c.
Proof.
  induction e; simpl; try (split; [discriminate | intros [c H]; discriminate]).
  - split; eauto.
  - destruct e; simpl;
      try (split; [discriminate | intros [c H]; discriminate]).
    rewrite existsb_find.
    destruct (qualify_loop Name Sel imp) as [[n pk] err] eqn:Hq.
    rewrite qualify_loop_find in Hq.
    destruct (find (importMatches Name) imp) as [i|]; inversion Hq; subst.
    + split; eauto.
    + split; [intros [x H]; discriminate | intros [c H]; discriminate].
  - rewrite andb_true_iff, IHe1, IHe2. split.
    + intros [[k Hk] [v Hv]]. rewrite Hk, Hv. simpl. eauto.
    + intros [c H]. apply bind_Ok in H as [k [Hk H]]. apply bind_Ok in H as [v [Hv _]].
      eauto.
  - rewrite IHe. split.
    + intros [x Hx]. rewrite Hx. simpl. eauto.
    + intros [c H]. apply bind_Ok in H as [x [Hx _]]. eauto.
  - rewrite IHe. split.
    + intros [x Hx]. rewrite Hx. simpl. eauto.
    + intros [c H]. apply bind_Ok in H as [x [Hx _]]. eauto.
Qed.

Lemma fileItems_opts g g' f : opts g = opts g' -> fileItems g f = fileItems g' f.
Proof.
  intros H. unfold fileItems. apply collect_ext. intros x _. now apply specItems_opts.
Qed.

(** [File] on a generator and the generation with the options of the
    generator succeed together, and panic with the same value. *)
Lemma File_Ok_generate f g :
  (exists g', File f g = Ok g') <-> (exists out, generate (opts g) f = Ok out).
Proof.
  rewrite File_items, generate_items.
  rewrite (fileItems_opts g (NewGenerator (opts g)) f eq_refl).
  destruct (fileItems (NewGenerator (opts g)) f) as [s|p]; simpl.
  - split; intros _; eexists; reflexivity.
  - split; intros [x H]; discriminate.
Qed.

Lemma File_Panic_generate f g p :
  File f g = Panic p -> generate (opts g) f = Panic p.
Proof.
  rewrite File_items, generate_items.
  rewrite (fileItems_opts g (NewGenerator (opts g)) f eq_refl).
  destruct (fileItems (NewGenerator (opts g)) f) as [s|q]; simpl;
    [discriminate | intros H; now inversion H].
Qed.

Lemma generate_Ok_iff (o : GeneratorOpts) (f : ast.File) :
  (exists out, generate o f = Ok out) <->
  (forall node field,
      In node (ast.typeSpecs f) -> In field (structFields node) ->
      ast.Names field <> [] /\ translatable (ast.Imports f) (ast.Type_ field) = true).
Proof.
  split.
  - intros [out H] node field Hn Hf.
    destruct (fieldItems (NewGenerator o) node (ast.Imports f) field) as [a|p] eqn:Hi.
    + split.
      * unfold fieldItems in Hi. destruct (ast.Names field); [discriminate|discriminate].
      * apply fieldItems_members in Hi as [key [c [t [_ [Hc _]]]]].
        apply determineType_translatable. now exists c.
    + destruct (generate_Panic o f node field Hn Hf (ex_intro _ p Hi)) as [q Hq].
      congruence.
  - intros H. destruct (generate o f) as [out|p] eqn:Hg; [now exists out|].
    apply generate_Panic_inv in Hg as [node [field [Hn [Hf [[Hnames _]|Ht]]]]].
    + destruct (H node field Hn Hf) as [Hne _]. contradiction.
    + destruct (H node field Hn Hf) as [_ Htr].
      apply determineType_translatable in Htr as [c Hc]. congruence.
Qed.

(** X1.  [File] returns, on every generator, exactly when every field of
    every struct type declaration of the file has a name and a type that
    [determineType] translates. *)
Theorem File_succeeds_iff (g : Generator) (f : ast.File) :
  (exists g', File f g = Ok g') <->
  (forall node field,
      In node (ast.typeSpecs f) -> In field (structFields node) ->
      ast.Names field <> [] /\ translatable (ast.Imports f) (ast.Type_ field) = true).
Proof.
  rewrite File_Ok_generate. apply generate_Ok_iff.
Qed.

Lemma File_succeeds_iff_witness :
  exists g', File userFile (NewGenerator userOpts) = Ok g'.
Proof.
  apply (proj2 (File_succeeds_iff (NewGenerator userOpts) userFile)).
  intros node field Hn Hf. simpl in Hn.
  destruct Hn as [<-|[]]. simpl in Hf.
  destruct Hf as [<-|[<-|[]]]; split; (discriminate || reflexivity).
Defined.

Lemma determineType_Panic_kind e imp p :
  determineType e imp = Panic p ->
  (exists x, p = UnsupportedType (ast.type_name x))
  \/ p = CouldNotQualify "could not find import"
  \/ exists x, p = RuntimeError ("interface conversion: ast.Expr is "
                                  ++ ast.type_name x ++ ", not *ast.Ident").
Proof.
  induction e; intros H;
    try (left;
         match type of H with determineType ?x _ = _ => exists x end;
         simpl in H; inversion H; reflexivity).
  - destruct e;
      try (right; right;
           match type of H with
           | determineType (ast.SelectorExpr ?x _) _ = _ => exists x
           end;
           simpl in H; inversion H; reflexivity).
    simpl in H.
    destruct (qualify_loop Name Sel imp) as [[n pk] [err|]] eqn:Hq; [|discriminate].
    rewrite qualify_loop_find in Hq.
    destruct (find (importMatches Name) imp); inversion Hq; subst.
    right; left. congruence.
  - simpl in H.
    destruct (determineType e1 imp) as [k|q]; simpl in H; [|now apply IHe1].
    destruct (determineType e2 imp) as [v|q]; simpl in H; [discriminate|now apply IHe2].
  - simpl in H.
    destruct (determineType e imp) as [x|q]; simpl in H; [discriminate|now apply IHe].
  - simpl in H.
    destruct (determineType e imp) as [x|q]; simpl in H; [discriminate|now apply IHe].
Qed.

(** X2.  When [File] panics, it does so with the message of the missing
    field name, of an unsupported type, of an import that is not found, or
    with the failed type assertion of [qualify] on a selector whose
    qualifier is no identifier.  The panic of [Type] and the index panic of
    [fieldNames] are never raised by [File]. *)
Theorem File_panics (g : Generator) (f : ast.File) (p : panic) :
  File f g = Panic p ->
  (p = FieldMustHaveName
   \/ (exists x, p = UnsupportedType (ast.type_name x))
   \/ p = CouldNotQualify "could not find import"
   \/ exists x, p = RuntimeError ("interface conversion: ast.Expr is "
                                   ++ ast.type_name x ++ ", not *ast.Ident"))
  /\ p <> MustBeStruct
  /\ p <> RuntimeError "index out of range [0] with length 0".
Proof.
  intros H. apply File_Panic_generate in H.
  apply generate_Panic_inv in H as [node [field [_ [_ [[_ ->]|Ht]]]]].
  - split; [now left|]. split; discriminate.
  - apply determineType_Panic_kind in Ht as [[x ->]|[->|[x ->]]].
    + split; [right; left; now exists x|]. split; discriminate.
    + split; [right; right; now left|]. split; discriminate.
    + split; [right; right; right; now exists x|]. split; [discriminate|].
      intros E. inversion E.
Qed.

Lemma File_panics_witness :
  (RuntimeError "interface conversion: ast.Expr is *ast.SelectorExpr, not *ast.Ident"
   = FieldMustHaveName
   \/ (exists x, RuntimeError
                   "interface conversion: ast.Expr is *ast.SelectorExpr, not *ast.Ident"
                 = UnsupportedType (ast.type_name x))
   \/ RuntimeError "interface conversion: ast.Expr is *ast.SelectorExpr, not *ast.Ident"
      = CouldNotQualify "could not find import"
   \/ exists x, RuntimeError
                  "interface conversion: ast.Expr is *ast.SelectorExpr, not *ast.Ident"
                = RuntimeError ("interface conversion: ast.Expr is "
                                ++ ast.type_name x ++ ", not *ast.Ident"))
  /\ RuntimeError "interface conversion: ast.Expr is *ast.SelectorExpr, not *ast.Ident"
     <> MustBeStruct
  /\ RuntimeError "interface conversion: ast.Expr is *ast.SelectorExpr, not *ast.Ident"
     <> RuntimeError "index out of range [0] with length 0".
Proof.
  apply (File_panics (NewGenerator someOpts) nestedSelectorFile). reflexivity.
Defined.

(** ** The key of a tagged field *)

Lemma beforeComma_split v :
  exists suffix, v = (beforeComma v ++ suffix)%string
                 /\ (suffix = EmptyString \/ exists r, suffix = String "," r).
Proof.
  induction v as [|c v IH]; simpl.
  - exists EmptyString. split; [reflexivity | now left].
  - destruct (Ascii.eqb_spec c ",") as [->|Hc].
    + exists (String "," v). split; [reflexivity | right; now exists v].
    + destruct IH as [suffix [Hv Hs]]. exists suffix. split; [|exact Hs].
      simpl. now rewrite <- Hv.
Qed.

Lemma Index_beforeComma v : strings.Index (beforeComma v) "," = (-1)%Z.
Proof.
  induction v as [|c v IH]; simpl; [reflexivity|].
  destruct (Ascii.eqb c ",") eqn:E; simpl; [reflexivity|].
  now rewrite E, IH.
Qed.

(** X3.  A key taken from a tag is a prefix of the tag value, holds no
    comma, and what it leaves out of the value starts with a comma. *)
Theorem tag_key_is_prefix (g : Generator) (field : ast.Field) (name : string)
  (rest : list string) (lit : string) :
  ast.Names field = name :: rest ->
  String.eqb (StructTag (opts g)) EmptyString = false ->
  ast.Tag field = Some lit ->
  String.eqb (reflect.Get lit (StructTag (opts g))) EmptyString = false ->
  exists key suffix,
    fieldNames g field = Ok (name, key)
    /\ reflect.Get lit (StructTag (opts g)) = (key ++ suffix)%string
    /\ strings.Index key "," = (-1)%Z
    /\ (suffix = EmptyString \/ exists r, suffix = String "," r).
Proof.
  intros Hn HT Hl Hv.
  destruct (beforeComma_split (reflect.Get lit (StructTag (opts g)))) as [suffix [Hs Hc]].
  exists (beforeComma (reflect.Get lit (StructTag (opts g)))), suffix.
  split; [|split; [exact Hs | split; [apply Index_beforeComma | exact Hc]]].
  unfold fieldNames. rewrite Hn, HT, Hl. cbn [negb]. rewrite Hv. cbn [negb].
  now rewrite slice_beforeComma.
Qed.

Lemma tag_key_is_prefix_witness :
  exists key suffix,
    fieldNames (NewGenerator userOpts) secondEntryField = Ok ("A", key)
    /\ "nm,omitempty" = (key ++ suffix)%string
    /\ strings.Index key "," = (-1)%Z
    /\ (suffix = EmptyString \/ exists r, suffix = String "," r).
Proof.
  apply (tag_key_is_prefix (NewGenerator userOpts) secondEntryField "A" []
           ("`json:" ++ quoted "a" ++ " particle:" ++ quoted "nm,omitempty" ++ "`"));
    reflexivity.
Defined.

Lemma Get_interpreted r T : reflect.Get (String dquote r) T = EmptyString.
Proof.
  unfold reflect.Get, reflect.Lookup. reflexivity.
Qed.

(** X4.  A tag written as an interpreted string literal (between double
    quotes) never gives a key: the lookup stops at the opening quote, and
    the key is the name of the field. *)
Theorem interpreted_tag_ignored (g : Generator) (field : ast.Field) (name : string)
  (rest : list string) (lit : string) :
  ast.Names field = name :: rest ->
  ast.Tag field = Some (String dquote lit) ->
  fieldNames g field = Ok (name, name).
Proof.
  intros Hn Hl. unfold fieldNames. rewrite Hn, Hl, Get_interpreted.
  now destruct (negb _).
Qed.

Lemma interpreted_tag_ignored_witness :
  fieldNames (NewGenerator userOpts) interpretedTagField = Ok ("A", "A").
Proof.
  apply (interpreted_tag_ignored (NewGenerator userOpts) interpretedTagField "A" []
           ("particle:" ++ String bslash (String dquote
              ("a" ++ String bslash (String dquote (String dquote EmptyString))))));
    reflexivity.
Defined.

(** X5.  A raw tag literal whose only entry stands under the configured
    name gives no key either: [Get] reads the opening back quote as the
    first byte of the entry's name, and the key is the name of the field. *)
Theorem first_tag_entry_ignored (g : Generator) (field : ast.Field) (name : string)
  (rest : list string) (v : string) :
  ast.Names field = name :: rest ->
  allBytes reflect.key_byte (StructTag (opts g)) = true ->
  allBytes plainByte v = true ->
  ast.Tag field = Some ("`" ++ StructTag (opts g) ++ ":" ++ quoted v ++ "`")%string ->
  fieldNames g field = Ok (name, name).
Proof.
  intros Hn HT Hv Hl. unfold fieldNames.
  rewrite Hn, Hl, (Get_first_entry _ v HT Hv). now destruct (negb _).
Qed.

Lemma first_tag_entry_ignored_witness :
  fieldNames (NewGenerator userOpts) nameField = Ok ("Name", "Name").
Proof.
  apply (first_tag_entry_ignored (NewGenerator userOpts) nameField "Name" [] "name");
    reflexivity.
Defined.

Lemma length_append (a b : string) :
  String.length (a ++ b) = String.length a + String.length b.
Proof.
  induction a as [|c a IH]; simpl; [reflexivity | now rewrite IH].
Qed.

Lemma key_byte_not_space c : reflect.key_byte c = true -> Ascii.eqb c " " = false.
Proof.
  intros H. destruct (Ascii.eqb_spec c " ") as [->|_]; [|reflexivity].
  vm_compute in H. discriminate.
Qed.

Lemma asciiPlain_plain v : allBytes asciiPlainByte v = true -> allBytes plainByte v = true.
Proof.
  induction v as [|c v IH]; simpl; [reflexivity|].
  intros H. apply andb_true_iff in H as [Hc Hv].
  unfold asciiPlainByte in Hc. apply andb_true_iff in Hc as [Hc _].
  apply andb_true_iff in Hc as [Hc _]. now rewrite Hc, IH.
Qed.

Lemma asciiPlainByte_inv c :
  asciiPlainByte c = true ->
  Ascii.eqb c dquote = false /\ Ascii.eqb c bslash = false
  /\ Ascii.eqb c strconv.newline = false /\ (N_of_ascii c <? 128)%N = true.
Proof.
  unfold asciiPlainByte, plainByte. intros H.
  repeat (apply andb_true_iff in H as [H ?]).
  repeat match goal with X : negb _ = true |- _ => apply negb_true_iff in X end.
  repeat split; try assumption.
  destruct (Ascii.eqb_spec c strconv.newline) as [->|_]; [|reflexivity].
  vm_compute in H1. discriminate.
Qed.

Lemma indexByte_plain v r :
  allBytes asciiPlainByte v = true ->
  strconv.indexByte (v ++ String dquote r) dquote = Some (String.length v).
Proof.
  induction v as [|c v IH]; simpl; intros H.
  - reflexivity.
  - apply andb_true_iff in H as [Hc Hv].
    destruct (asciiPlainByte_inv c Hc) as [-> _]. now rewrite (IH Hv).
Qed.

Lemma take_length_app v x : strconv.take (String.length v) (v ++ x) = v.
Proof.
  induction v as [|c v IH]; simpl; [now destruct x | now rewrite IH].
Qed.

Lemma drop_length_app v c : utf8.drop (S (String.length v)) (v ++ String c EmptyString) = EmptyString.
Proof.
  induction v as [|d v IH]; simpl; [reflexivity | exact IH].
Qed.

Lemma hasByte_plain v :
  allBytes asciiPlainByte v = true ->
  strconv.hasByte v bslash = false /\ strconv.hasByte v strconv.newline = false.
Proof.
  induction v as [|c v IH]; simpl; intros H; [now split|].
  apply andb_true_iff in H as [Hc Hv].
  destruct (asciiPlainByte_inv c Hc) as [_ [-> [-> _]]]. now apply IH.
Qed.

Lemma valid_loop_ascii v :
  allBytes asciiPlainByte v = true ->
  forall n, String.length v <= n -> utf8.valid_loop n v = true.
Proof.
  induction v as [|c v IH]; intros H n Hn; [now destruct n|].
  simpl in H. apply andb_true_iff in H as [Hc Hv].
  destruct (asciiPlainByte_inv c Hc) as [_ [_ [_ Hlt]]].
  destruct n as [|n]; [simpl in Hn; lia|].
  cbn [utf8.valid_loop utf8.DecodeRuneInString]. rewrite Hlt.
  replace ((N_of_ascii c =? utf8.RuneError)%N) with false.
  - cbn [andb utf8.drop]. apply IH; [exact Hv | simpl in Hn; lia].
  - symmetry. apply N.eqb_neq. apply N.ltb_lt in Hlt. unfold utf8.RuneError. lia.
Qed.

(** [strconv.Unquote] returns a quoted plain ASCII string as it is. *)
Lemma Unquote_plain v :
  allBytes asciiPlainByte v = true -> strconv.Unquote (quoted v) = Some v.
Proof.
  intros Hv. unfold strconv.Unquote, strconv.unquote, quoted.
  rewrite (indexByte_plain v _ Hv), take_length_app, drop_length_app.
  change (Ascii.eqb dquote "`") with false.
  change (Ascii.eqb dquote dquote) with true. cbv iota. cbn [orb].
  destruct (hasByte_plain v Hv) as [-> ->].
  unfold utf8.ValidString. rewrite (valid_loop_ascii v Hv _ (le_n _)). reflexivity.
Qed.

(** An entry that stands second in a raw tag literal is found. *)
Lemma Get_second_entry (k1 v1 T v : string) :
  allBytes reflect.key_byte k1 = true -> allBytes plainByte v1 = true ->
  allBytes reflect.key_byte T = true -> T <> EmptyString ->
  String.eqb T (String "`" k1) = false ->
  allBytes asciiPlainByte v = true ->
  reflect.Get ("`" ++ k1 ++ ":" ++ quoted v1 ++ " " ++ T ++ ":" ++ quoted v ++ "`") T = v.
Proof.
  intros Hk1 Hv1 HT HTne Hne Hv.
  destruct T as [|t0 T']; [contradiction|].
  unfold reflect.Get, reflect.Lookup, quoted.
  cbn [append]. rewrite !append_assoc. cbn [append String.length reflect.Lookup_loop].
  cbn [reflect.skip_spaces]. change (Ascii.eqb "`" " ") with false. cbv iota.
  cbn [reflect.scan_key]. change (reflect.key_byte "`") with true. cbv iota.
  rewrite (scan_key_app k1 ":" _ Hk1 eq_refl).
  change (Ascii.eqb ":" ":" && Ascii.eqb dquote dquote) with true. cbv iota.
  rewrite (scan_quoted_plain v1 _ Hv1), Hne.
  rewrite (Lookup_loop_fuel _ _
             (String.length
                (String " " (String t0 (T' ++ String ":"
                   (String dquote (v ++ String dquote "`"))))))).
  - cbn [String.length reflect.Lookup_loop reflect.skip_spaces].
    change (Ascii.eqb " " " ") with true. cbv iota.
    simpl in HT. apply andb_true_iff in HT as [Ht0 HT'].
    rewrite (key_byte_not_space t0 Ht0).
    cbn [reflect.scan_key]. rewrite Ht0.
    rewrite (scan_key_app T' ":" _ HT' eq_refl).
    change (Ascii.eqb ":" ":" && Ascii.eqb dquote dquote) with true. cbv iota.
    rewrite (scan_quoted_plain v _ (asciiPlain_plain v Hv)), String.eqb_refl.
    change (String dquote (v ++ String dquote EmptyString)) with (quoted v).
    now rewrite (Unquote_plain v Hv).
  - repeat (rewrite length_append || cbn [String.length]). lia.
  - lia.
Qed.

(** X6.  In a raw tag literal of two entries, the second one under the
    configured name, the key is the value of this entry truncated at its
    first comma. *)
Theorem second_tag_entry_found (g : Generator) (field : ast.Field) (name : string)
  (rest : list string) (k1 v1 v : string) :
  ast.Names field = name :: rest ->
  allBytes reflect.key_byte k1 = true -> allBytes plainByte v1 = true ->
  allBytes reflect.key_byte (StructTag (opts g)) = true ->
  StructTag (opts g) <> EmptyString ->
  String.eqb (StructTag (opts g)) (String "`" k1) = false ->
  allBytes asciiPlainByte v = true -> v <> EmptyString ->
  ast.Tag field =
    Some ("`" ++ k1 ++ ":" ++ quoted v1 ++ " " ++ StructTag (opts g) ++ ":"
          ++ quoted v ++ "`")%string ->
  fieldNames g field = Ok (name, beforeComma v).
Proof.
  intros Hn Hk1 Hv1 HT HTne Hne Hv Hvne Hl. unfold fieldNames.
  rewrite Hn, Hl, (Get_second_entry k1 v1 _ v Hk1 Hv1 HT HTne Hne Hv).
  apply String.eqb_neq in HTne, Hvne. rewrite HTne, Hvne. cbn [negb].
  now rewrite slice_beforeComma.
Qed.

Lemma second_tag_entry_found_witness :
  fieldNames (NewGenerator userOpts) secondEntryField = Ok ("A", "nm").
Proof.
  apply (second_tag_entry_found (NewGenerator userOpts) secondEntryField "A" []
           "json" "a" "nm,omitempty"); try reflexivity; discriminate.
Defined.

(** ** More on imports *)

Lemma find_app_Some {A : Type} (p : A -> bool) (l m : list A) x :
  find p l = Some x -> find p (l ++ m) = Some x.
Proof.
  induction l as [|y l IH]; simpl; [discriminate|].
  destruct (p y); [trivial | exact IH].
Qed.

Lemma determineType_imports_app e imp more c :
  determineType e imp = Ok c -> determineType e (imp ++ more) = Ok c.
Proof.
  revert c; induction e; intros c H; simpl in H |- *; try discriminate.
  - exact H.
  - destruct e; simpl in H |- *; try discriminate.
    rewrite qualify_loop_find in *.
    destruct (find (importMatches Name) imp) as [i|] eqn:Hf; [|discriminate].
    now rewrite (find_app_Some _ _ more _ Hf).
  - apply bind_Ok in H as [k [Hk H]]. apply bind_Ok in H as [v [Hv H]].
    rewrite (IHe1 _ Hk), (IHe2 _ Hv). exact H.
  - apply bind_Ok in H as [x [Hx H]]. rewrite (IHe _ Hx). exact H.
  - apply bind_Ok in H as [x [Hx H]]. rewrite (IHe _ Hx). exact H.
Qed.

Lemma collect_Ok_transfer {A : Type} (l : list A) (f f' : A -> result (list jen.Code)) s :
  collect l f = Ok s ->
  (forall x a, In x l -> f x = Ok a -> f' x = Ok a) ->
  collect l f' = Ok s.
Proof.
  revert s; induction l as [|x l IH]; simpl; intros s H Hf; [exact H|].
  apply bind_Ok in H as [a [Ha H]]. apply bind_Ok in H as [b [Hb H]].
  rewrite (Hf x a (or_introl eq_refl) Ha). simpl.
  rewrite (IH b Hb); [exact H|]. intros y c Hy; apply Hf; now right.
Qed.

Lemma fieldItems_imports_app g node imp more field a :
  fieldItems g node imp field = Ok a -> fieldItems g node (imp ++ more) field = Ok a.
Proof.
  unfold fieldItems. destruct (ast.Names field); [trivial|].
  intros H. apply bind_Ok in H as [names [Hn H]]. apply bind_Ok in H as [c [Hc H]].
  rewrite Hn. simpl. rewrite (determineType_imports_app _ _ more _ Hc). exact H.
Qed.

Lemma specItems_imports_app g imp more node a :
  specItems g imp node = Ok a -> specItems g (imp ++ more) node = Ok a.
Proof.
  unfold specItems. destruct (ast.TypeExpr node); trivial.
  intros H. apply bind_Ok in H as [l [Hl H]].
  rewrite (collect_Ok_transfer _ _ (fieldItems g node (imp ++ more)) _ Hl); [exact H|].
  intros x b _. apply fieldItems_imports_app.
Qed.

(** X7.  Imports added behind the imports of a file do not change what is
    generated for it: the first matching import is used, so the same
    statements are generated (only the hints grow). *)
Theorem more_imports_same_statements (o : GeneratorOpts) (f : ast.File)
  (more : list ast.ImportSpec) (out : jen.File) :
  generate o f = Ok out ->
  exists out', generate o (withMoreImports f more) = Ok out'
               /\ jen.items out' = jen.items out
               /\ outline out' = outline out.
Proof.
  rewrite !generate_items. intros H. apply bind_Ok in H as [s [Hs H]].
  inversion H; subst out; clear H.
  unfold fileItems in *. change (ast.typeSpecs (withMoreImports f more))
    with (ast.typeSpecs f).
  change (ast.Imports (withMoreImports f more)) with (ast.Imports f ++ more).
  rewrite (collect_Ok_transfer _ _
             (specItems (NewGenerator o) (ast.Imports f ++ more)) _ Hs).
  - simpl. eexists. split; [reflexivity|]. split; reflexivity.
  - intros x a _. apply specItems_imports_app.
Qed.

Lemma more_imports_same_statements_witness :
  exists out', generate someOpts (withMoreImports timeFile [fmtImport]) = Ok out'
               /\ jen.items out' = jen.items timeOutput
               /\ outline out' = outline timeOutput.
Proof.
  apply (more_imports_same_statements someOpts timeFile [fmtImport] timeOutput).
  reflexivity.
Defined.

Lemma TrimRight_quote p :
  allBytes noQuote p = true ->
  strings.TrimRight (p ++ String dquote EmptyString) (String dquote EmptyString) = p.
Proof.
  induction p as [|c p IH]; [reflexivity|].
  simpl. intros H. apply andb_true_iff in H as [Hc Hp].
  rewrite (IH Hp). destruct p; [|reflexivity].
  unfold noQuote in Hc. apply negb_true_iff in Hc. now rewrite Hc.
Qed.

Lemma Trim_quoted p :
  allBytes noQuote p = true ->
  strings.Trim (quoted p) (String dquote EmptyString) = p.
Proof.
  intros H. unfold strings.Trim, quoted.
  cbn [strings.TrimLeft strings.contains]. change (Ascii.eqb dquote dquote) with true.
  cbn [orb]. destruct p as [|c p]; [reflexivity|].
  cbn [append strings.TrimLeft strings.contains].
  pose proof H as H'. simpl in H'. apply andb_true_iff in H' as [Hc _].
  unfold noQuote in Hc. apply negb_true_iff in Hc. rewrite Hc. cbn [orb].
  exact (TrimRight_quote (String c p) H).
Qed.

(** X8.  An import whose path is written between double quotes is found
    under the last segment of the path, with or without an explicit alias,
    and the generated type is qualified by the path without its quotes. *)
Theorem quoted_import_resolves (alias : option string) (p id : string) :
  allBytes noQuote p = true ->
  importPath (ast.mkImportSpec alias (quoted p)) = p
  /\ determineType (ast.SelectorExpr (ast.Ident (lastSegment p)) id)
       [ast.mkImportSpec alias (quoted p)] =
     Ok (jen.Statement [jen.Qual p id]).
Proof.
  intros H.
  assert (Hp : importPath (ast.mkImportSpec alias (quoted p)) = p)
    by (unfold importPath; simpl; now apply Trim_quoted).
  split; [exact Hp|]. rewrite determineType_Qualified. simpl.
  unfold importMatches. rewrite Hp, String.eqb_refl. simpl. now rewrite Hp.
Qed.

Lemma quoted_import_resolves_witness :
  importPath (ast.mkImportSpec None (quoted "github.com/lukasl-dev/particle"))
  = "github.com/lukasl-dev/particle"
  /\ determineType (ast.SelectorExpr (ast.Ident "particle") "Generator")
       [ast.mkImportSpec None (quoted "github.com/lukasl-dev/particle")] =
     Ok (jen.Statement [jen.Qual "github.com/lukasl-dev/particle" "Generator"]).
Proof.
  apply (quoted_import_resolves None "github.com/lukasl-dev/particle" "Generator").
  reflexivity.
Defined.

Lemma TrimRight_kept s c cutset :
  strings.contains cutset c = false ->
  strings.TrimRight (s ++ String c EmptyString) cutset = (s ++ String c EmptyString)%string.
Proof.
  intros Hc. induction s as [|x s IH]; simpl.
  - now rewrite Hc.
  - rewrite IH. destruct s; reflexivity.
Qed.

(** X9.  The path of an import written as a raw string literal keeps its
    back quotes: only double quotes are trimmed.  An import of this form
    that is found (under its explicit alias) qualifies the generated type by
    the path with the back quotes. *)
Theorem raw_import_path_keeps_quotes (name : option string) (p alias id : string) :
  importPath (ast.mkImportSpec name ("`" ++ p ++ "`")) = ("`" ++ p ++ "`")%string
  /\ determineType (ast.SelectorExpr (ast.Ident alias) id)
       [ast.mkImportSpec (Some alias) ("`" ++ p ++ "`")] =
     Ok (jen.Statement [jen.Qual ("`" ++ p ++ "`") id]).
Proof.
  assert (Hp : forall n, importPath (ast.mkImportSpec n ("`" ++ p ++ "`"))
                         = ("`" ++ p ++ "`")%string).
  { intros n. unfold importPath, strings.Trim. simpl ast.ImportPath.
    cbn [append strings.TrimLeft strings.contains].
    change (Ascii.eqb "`" dquote) with false. cbn [orb].
    exact (TrimRight_kept (String "`" p) "`" (String dquote EmptyString) eq_refl). }
  split; [apply Hp|]. rewrite determineType_Qualified.
  cbn [find]. unfold importMatches at 1. cbn [ast.ImportName].
  rewrite String.eqb_refl, orb_true_r. now rewrite Hp.
Qed.

Lemma raw_import_path_keeps_quotes_witness :
  importPath (ast.mkImportSpec None "`time`") = "`time`"
  /\ determineType (ast.SelectorExpr (ast.Ident "t") "Time")
       [ast.mkImportSpec (Some "t") "`time`"] =
     Ok (jen.Statement [jen.Qual "`time`" "Time"]).
Proof.
  exact (raw_import_path_keeps_quotes None "time" "t" "Time").
Defined.


Lemma map_set_keys {V : Type} k (v : V) m k' :
  In k' (map fst (jen.map_set k v m)) <-> k' = k \/ In k' (map fst m).
Proof.
  unfold jen.map_set. simpl. split.
  - intros [H|H]; [left; congruence|].
    right. apply in_map_iff in H as [e [He Hin]]. apply filter_In in Hin as [Hin _].
    apply in_map_iff. now exists e.
  - intros [->|H]; [now left|].
    destruct (String.eqb_spec k' k) as [->|Hne]; [now left|]. right.
    apply in_map_iff in H as [e [He Hin]]. apply in_map_iff. exists e.
    split; [exact He|]. apply filter_In. split; [exact Hin|].
    rewrite He. apply negb_true_iff. now apply String.eqb_neq.
Qed.

Lemma map_set_NoDup {V : Type} k (v : V) m :
  NoDup (map fst m) -> NoDup (map fst (jen.map_set k v m)).
Proof.
  intros H. unfold jen.map_set. simpl. constructor.
  - intros Hin. apply in_map_iff in Hin as [e [He Hin]].
    apply filter_In in Hin as [_ Hf]. rewrite He, String.eqb_refl in Hf. discriminate.
  - induction m as [|[k0 v0] m IH]; simpl; [constructor|].
    inversion H; subst. destruct (negb (String.eqb k0 k)); simpl; [|now apply IH].
    constructor; [|now apply IH].
    intros Hin. apply in_map_iff in Hin as [e [He Hin]].
    apply filter_In in Hin as [Hin _]. apply H2. apply in_map_iff. now exists e.
Qed.

Lemma Imports_hints_keys imp g :
  (NoDup (map fst (jen.hints (file g))) ->
   NoDup (map fst (jen.hints (file (Imports imp g)))))
  /\ forall path,
      In path (map fst (jen.hints (file (Imports imp g)))) <->
      In path (map fst (jen.hints (file g)))
      \/ exists i, In i imp /\ importPath i = path.
Proof.
  revert g; induction imp as [|i imp IH]; intros g; simpl.
  - split; [trivial|]. intros path. split; [now left|].
    intros [H|[x [[] _]]]. exact H.
  - destruct (IH (Import i g)) as [Hnd Hkeys]. split.
    + intros H. apply Hnd. rewrite Import_hints. now apply map_set_NoDup.
    + intros path. rewrite Hkeys, Import_hints, map_set_keys. split.
      * intros [[->|H]|[x [Hx Hp]]]; eauto.
      * intros [H|[x [[->|Hx] Hp]]]; eauto.
Qed.

(** X10.  The hints of a generated file are a map: no path has two hints,
    and the paths that have one are the paths of the imports of the source
    file. *)
Theorem hints_are_a_map (o : GeneratorOpts) (f : ast.File) (out : jen.File) :
  generate o f = Ok out ->
  NoDup (map fst (jen.hints out))
  /\ forall path,
      In path (map fst (jen.hints out)) <->
      exists imp, In imp (ast.Imports f) /\ importPath imp = path.
Proof.
  rewrite generate_items. intros H. apply bind_Ok in H as [s [_ H]].
  inversion H; subst out; clear H. simpl.
  destruct (Imports_hints_keys (ast.Imports f) (NewGenerator o)) as [Hnd Hkeys].
  split; [apply Hnd; constructor|].
  intros path. rewrite Hkeys. simpl. split; [intros [[]|H]; exact H | now right].
Qed.

Lemma hints_are_a_map_witness :
  NoDup (map fst (jen.hints timeOutput))
  /\ forall path,
      In path (map fst (jen.hints timeOutput)) <->
      exists imp, In imp (ast.Imports timeFile) /\ importPath imp = path.
Proof.
  apply (hints_are_a_map someOpts timeFile timeOutput). reflexivity.
Defined.

(** ** The generated unit as a whole *)

(** X11.  [File] appends to what the generator holds: on a generator that
    already generated, it adds the statements it generates on a new one, and
    it panics exactly when it panics on a new one. *)
Theorem File_appends (f : ast.File) (g : Generator) :
  match generate (opts g) f with
  | Ok out =>
      exists g', File f g = Ok g'
                 /\ jen.items (file g') = jen.items (file g) ++ jen.items out
                 /\ opts g' = opts g
                 /\ jen.pkg (file g') = jen.pkg (file g)
                 /\ jen.headers (file g') = jen.headers (file g)
  | Panic p => File f g = Panic p
  end.
Proof.
  rewrite generate_items, File_items.
  rewrite (fileItems_opts (NewGenerator (opts g)) g f eq_refl).
  destruct (fileItems g f) as [s|p]; simpl; [|reflexivity].
  eexists. split; [reflexivity|]. simpl.
  rewrite Imports_items, Imports_opts, Imports_pkg, Imports_headers. repeat split.
Qed.

Lemma isPairs_fields g node imp Fields l :
  collect Fields (fieldItems g node imp) = Ok l ->
  isPairs (partialName g node) (members l).
Proof.
  revert l; induction Fields as [|x Fields IH]; simpl; intros l H.
  - inversion H. constructor.
  - apply bind_Ok in H as [a [Ha H]]. apply bind_Ok in H as [b [Hb H]].
    inversion H; subst l. rewrite members_app.
    apply fieldItems_members in Ha as [key [c [t [_ [_ [_ Hm]]]]]]. rewrite Hm.
    simpl. constructor. now apply IH.
Qed.

Lemma isUnit_specs g imp specs s :
  collect specs (specItems g imp) = Ok s -> isUnit (members s).
Proof.
  revert s; induction specs as [|x specs IH]; simpl; intros s H.
  - inversion H. constructor.
  - apply bind_Ok in H as [a [Ha H]]. apply bind_Ok in H as [b [Hb H]].
    inversion H; subst s. rewrite members_app.
    unfold specItems in Ha. destruct (ast.TypeExpr x);
      try (inversion Ha; subst a; simpl; now apply IH).
    apply bind_Ok in Ha as [l [Hl Ha]]. inversion Ha; subst a.
    cbn [members member app]. constructor; [|now apply IH].
    eapply isPairs_fields; eassumption.
Qed.

Lemma isPairs_wellPaired recv ps l :
  isPairs recv ps -> wellPaired (Some recv) (ps ++ l) = wellPaired (Some recv) l.
Proof.
  induction 1; [reflexivity|].
  cbn [app wellPaired]. rewrite !String.eqb_refl, TypeExpr_eqb_refl. exact IHisPairs.
Qed.

Lemma isUnit_wellPaired l : isUnit l -> forall recv, wellPaired recv l = true.
Proof.
  induction 1; intros recv; [reflexivity|].
  cbn [wellPaired]. rewrite (isPairs_wellPaired name ps l H). apply IHisUnit.
Qed.

(** X12.  In a generated unit every accessor is followed by its mutator:
    both on the partial type defined last before them, the mutator named
    [With] and the name of the accessor, of the same type and on the same
    key. *)
Theorem accessors_and_mutators_pair (o : GeneratorOpts) (f : ast.File) (out : jen.File) :
  generate o f = Ok out -> wellPaired None (outline out) = true.
Proof.
  rewrite generate_items. intros H. apply bind_Ok in H as [s [Hs H]].
  inversion H; subst out; clear H. unfold outline; simpl.
  apply isUnit_wellPaired. eapply isUnit_specs. exact Hs.
Qed.

Lemma accessors_and_mutators_pair_witness :
  wellPaired None (outline userOutput) = true.
Proof.
  apply (accessors_and_mutators_pair userOpts userFile userOutput). reflexivity.
Defined.

(** X13.  On a file without struct type declaration [File] returns,
    whatever else the file declares, and appends no statement: the generator
    keeps its statements, its package and its options. *)
Theorem no_struct_no_statement (g : Generator) (f : ast.File) :
  (forall node, In node (ast.typeSpecs f) -> isStruct node = false) ->
  exists g', File f g = Ok g'
             /\ jen.items (file g') = jen.items (file g)
             /\ jen.pkg (file g') = jen.pkg (file g)
             /\ opts g' = opts g.
Proof.
  intros H. rewrite File_items. unfold fileItems.
  assert (Hc : collect (ast.typeSpecs f) (specItems g (ast.Imports f)) = Ok []).
  { induction (ast.typeSpecs f) as [|x l IH]; [reflexivity|].
    simpl. rewrite (specItems_not_struct _ _ x (H x (or_introl eq_refl))). simpl.
    rewrite IH; [reflexivity|]. intros node Hn. apply H. now right. }
  rewrite Hc. simpl. eexists. split; [reflexivity|]. unfold emits; simpl.
  rewrite app_nil_r, Imports_items, Imports_pkg, Imports_opts. repeat split.
Qed.

Lemma no_struct_no_statement_witness :
  exists g', File noStructFile (NewGenerator someOpts) = Ok g'
             /\ jen.items (file g') = jen.items (file (NewGenerator someOpts))
             /\ jen.pkg (file g') = jen.pkg (file (NewGenerator someOpts))
             /\ opts g' = opts (NewGenerator someOpts).
Proof.
  apply (no_struct_no_statement (NewGenerator someOpts) noStructFile).
  intros node Hn. simpl in Hn. destruct Hn as [<-|[]]. reflexivity.
Defined.

(** X14.  The package of the generated file is the configured one and its
    header comments are the two fixed ones; the name of the package of the
    source file is not read. *)
Theorem package_of_generated_file (o : GeneratorOpts) (f : ast.File) (out : jen.File)
  (name : string) :
  generate o f = Ok out ->
  jen.pkg out = Package o
  /\ jen.headers out =
     ["Code generated by particle."; "https://github.com/lukasl-dev/particle"]
  /\ generate o (ast.mkFile name (ast.Decls f) (ast.Imports f)) = Ok out.
Proof.
  intros H. pose proof H as H'. rewrite generate_items in H'.
  apply bind_Ok in H' as [s [_ H']]. inversion H'; subst out. simpl.
  split; [reflexivity|]. split; [reflexivity|].
  rewrite generate_items in H |- *. exact H.
Qed.

Lemma package_of_generated_file_witness :
  jen.pkg userOutput = Package userOpts
  /\ jen.headers userOutput =
     ["Code generated by particle."; "https://github.com/lukasl-dev/particle"]
  /\ generate userOpts (ast.mkFile "other" (ast.Decls userFile) (ast.Imports userFile))
     = Ok userOutput.
Proof.
  apply (package_of_generated_file userOpts userFile userOutput "other"). reflexivity.
Defined.

(** * Properties of the command line driver *)

Lemma run_loop_dry (os : cmd.OS) (c : cmd.rootCmd) (n : nat) :
  cmd.dryRun c = true ->
  forall paths i w w' r,
    n = i + length paths ->
    cmd.run_loop os c n i paths w = (w', r) ->
    cmd.fs w' = cmd.fs w
    /\ (r = Ok None ->
        exists codes,
          Forall2 (fun p code => cmd.generate os c (cmd.fs w) p = Ok (code, None))
            paths codes
          /\ cmd.stdout w' = cmd.stdout w ++ cmd.dryOutput (combine paths codes)).
Proof.
  intros Hdry. induction paths as [|p paths IH]; intros i w w' r Hn H.
  - simpl in H. inversion H; subst. split; [reflexivity|]. intros _.
    exists []. split; [constructor | simpl; now rewrite app_nil_r].
  - cbn [cmd.run_loop] in H.
    destruct (cmd.generate os c (cmd.fs w) p) as [[code [err|]]|q] eqn:Hg.
    + inversion H; subst. split; [reflexivity | discriminate].
    + rewrite Hdry in H.
      destruct paths as [|p2 paths].
      * replace (Z.of_nat i =? Z.of_nat n - 1)%Z with true in H
          by (symmetry; apply Z.eqb_eq; simpl in Hn; lia).
        simpl in H. inversion H; subst. split; [reflexivity|]. intros _.
        exists [code]. split; [constructor; [exact Hg | constructor]|].
        simpl. now rewrite <- app_assoc.
      * replace (Z.of_nat i =? Z.of_nat n - 1)%Z with false in H
          by (symmetry; apply Z.eqb_neq; simpl in Hn; lia).
        cbn [negb] in H.
        apply IH in H; [|simpl in Hn |- *; lia].
        destruct H as [Hfs Hout]. split; [exact Hfs|]. intros Hr.
        destruct (Hout Hr) as [codes [Hall Hstd]].
        exists (code :: codes). split; [constructor; [exact Hg | exact Hall]|].
        rewrite Hstd. unfold cmd.Println; simpl cmd.stdout.
        inversion Hall; subst. simpl. rewrite <- !app_assoc. reflexivity.
    + inversion H; subst. split; [reflexivity | discriminate].
Qed.

(** X15.  A dry run leaves the file system as it is.  When it succeeds it
    has printed, for every source in the order of the glob, the line of its
    path and its code, with a line of dashes between two sources and none
    behind the last. *)
Theorem dry_run_prints (os : cmd.OS) (c : cmd.rootCmd) (w w' : cmd.World os)
  (r : result (option string)) :
  cmd.dryRun c = true ->
  cmd.run os c w = (w', r) ->
  cmd.fs w' = cmd.fs w
  /\ (r = Ok None ->
      exists paths codes,
        cmd.glob os c (cmd.fs w) = inl paths
        /\ Forall2 (fun p code => cmd.generate os c (cmd.fs w) p = Ok (code, None))
             paths codes
        /\ cmd.stdout w' = cmd.stdout w ++ cmd.dryOutput (combine paths codes)).
Proof.
  intros Hdry H. unfold cmd.run in H.
  destruct (cmd.glob os c (cmd.fs w)) as [paths|err].
  - apply (run_loop_dry os c (length paths) Hdry) in H; [|reflexivity].
    destruct H as [Hfs Hout]. split; [exact Hfs|]. intros Hr.
    destruct (Hout Hr) as [codes [Hall Hstd]]. now exists paths, codes.
  - inversion H; subst. split; [reflexivity | discriminate].
Qed.

Lemma dry_run_prints_witness :
  cmd.fs (fst (cmd.run cmd.listOS cmd.dryCmd cmd.emptyWorld)) = cmd.fs cmd.emptyWorld
  /\ (snd (cmd.run cmd.listOS cmd.dryCmd cmd.emptyWorld) = Ok None ->
      exists paths codes,
        cmd.glob cmd.listOS cmd.dryCmd (cmd.fs cmd.emptyWorld) = inl paths
        /\ Forall2 (fun p code =>
                      cmd.generate cmd.listOS cmd.dryCmd (cmd.fs cmd.emptyWorld) p
                      = Ok (code, None)) paths codes
        /\ cmd.stdout (fst (cmd.run cmd.listOS cmd.dryCmd cmd.emptyWorld)) =
           cmd.stdout cmd.emptyWorld ++ cmd.dryOutput (combine paths codes)).
Proof.
  apply (dry_run_prints cmd.listOS cmd.dryCmd cmd.emptyWorld).
  - reflexivity.
  - reflexivity.
Defined.

Lemma run_loop_existing (os : cmd.OS) (c : cmd.rootCmd) (n : nat) (w : cmd.World os) :
  cmd.dryRun c = false ->
  cmd.strings_HasSuffix (cmd.out c) ".go" = true ->
  cmd.StatIsNotExist os (cmd.fs w) (cmd.out c) = false ->
  forall paths i w' r,
    cmd.run_loop os c n i paths w = (w', r) ->
    w' = w
    /\ ((forall p, In p paths -> exists code,
                   cmd.generate os c (cmd.fs w) p = Ok (code, None)) ->
        r = Ok None).
Proof.
  intros Hdry Hgo Hstat. induction paths as [|p paths IH]; intros i w' r H.
  - simpl in H. inversion H; subst. split; [reflexivity | trivial].
  - cbn [cmd.run_loop] in H.
    destruct (cmd.generate os c (cmd.fs w) p) as [[code [err|]]|q] eqn:Hg.
    + inversion H; subst. split; [reflexivity|]. intros Hall.
      destruct (Hall p (or_introl eq_refl)) as [code' Hc]. congruence.
    + rewrite Hdry in H. unfold cmd.writeInto in H. rewrite Hgo, Hstat in H.
      apply IH in H as [Hw Hr]. split; [exact Hw|]. intros Hall.
      apply Hr. intros p' Hp'. apply Hall. now right.
    + inversion H; subst. split; [reflexivity|]. intros Hall.
      destruct (Hall p (or_introl eq_refl)) as [code' Hc]. congruence.
Qed.

(** X16.  When the output path ends in [.go] and a file of this path
    exists, a run writes nothing and prints nothing; when every source
    generates, it still returns without error: the generated code is
    dropped. *)
Theorem existing_output_untouched (os : cmd.OS) (c : cmd.rootCmd)
  (w w' : cmd.World os) (r : result (option string)) (paths : list string) :
  cmd.dryRun c = false ->
  cmd.strings_HasSuffix (cmd.out c) ".go" = true ->
  cmd.StatIsNotExist os (cmd.fs w) (cmd.out c) = false ->
  cmd.glob os c (cmd.fs w) = inl paths ->
  cmd.run os c w = (w', r) ->
  w' = w
  /\ ((forall p, In p paths -> exists code,
                 cmd.generate os c (cmd.fs w) p = Ok (code, None)) ->
      r = Ok None).
Proof.
  intros Hdry Hgo Hstat Hglob H. unfold cmd.run in H. rewrite Hglob in H.
  exact (run_loop_existing os c _ w Hdry Hgo Hstat paths 0 w' r H).
Qed.

Lemma existing_output_untouched_witness :
  fst (cmd.run cmd.listOS cmd.singleFileCmd cmd.existingWorld) = cmd.existingWorld
  /\ ((forall p, In p ["a.go"; "b.go"] -> exists code,
                 cmd.generate cmd.listOS cmd.singleFileCmd (cmd.fs cmd.existingWorld) p
                 = Ok (code, None)) ->
      snd (cmd.run cmd.listOS cmd.singleFileCmd cmd.existingWorld) = Ok None).
Proof.
  apply (existing_output_untouched cmd.listOS cmd.singleFileCmd cmd.existingWorld);
    reflexivity.
Defined.

(** X17.  When the output path ends in [.go] and no file of this path
    exists, a run over sources that all generate writes the code of the
    first source and nothing else, provided a file that was written exists
    afterwards: the codes of the other sources are dropped without error. *)
Theorem single_output_keeps_first (os : cmd.OS) (c : cmd.rootCmd) (w : cmd.World os)
  (p1 : string) (rest : list string) (code1 : string) (fs1 : cmd.FS os) :
  (forall fsys path code fsys',
      cmd.WriteFile os fsys path code = (fsys', None) ->
      cmd.StatIsNotExist os fsys' path = false) ->
  cmd.dryRun c = false ->
  cmd.strings_HasSuffix (cmd.out c) ".go" = true ->
  cmd.glob os c (cmd.fs w) = inl (p1 :: rest) ->
  cmd.StatIsNotExist os (cmd.fs w) (cmd.out c) = true ->
  cmd.generate os c (cmd.fs w) p1 = Ok (code1, None) ->
  cmd.WriteFile os (cmd.fs w) (cmd.out c) code1 = (fs1, None) ->
  (forall p, In p rest -> exists code, cmd.generate os c fs1 p = Ok (code, None)) ->
  cmd.run os c w = (cmd.mkWorld (cmd.stdout w) fs1, Ok None).
Proof.
  intros Hlaw Hdry Hgo Hglob Hstat Hg Hw Hall.
  unfold cmd.run. rewrite Hglob. cbn [cmd.run_loop]. rewrite Hg, Hdry.
  unfold cmd.writeInto. rewrite Hgo, Hstat, Hw.
  destruct (cmd.run_loop os c (length (p1 :: rest)) 1 rest (cmd.mkWorld (cmd.stdout w) fs1))
    as [w' r] eqn:Hloop.
  apply run_loop_existing in Hloop as [-> Hr]; try assumption.
  - f_equal. now apply Hr.
  - simpl. exact (Hlaw _ _ _ _ Hw).
Qed.

Lemma single_output_keeps_first_witness :
  cmd.run cmd.listOS cmd.singleFileCmd cmd.emptyWorld =
  (@cmd.mkWorld cmd.listOS [] [("out.go", "package partial")], Ok None).
Proof.
  apply (single_output_keeps_first cmd.listOS cmd.singleFileCmd cmd.emptyWorld
           "a.go" ["b.go"] "package partial").
  - intros fsys path code fsys' H. simpl in H. inversion H; subst.
    simpl. now rewrite String.eqb_refl.
  - reflexivity.
  - reflexivity.
  - reflexivity.
  - reflexivity.
  - reflexivity.
  - reflexivity.
  - intros p Hp. exists "package partial". destruct Hp as [<-|[]]. reflexivity.
Defined.




(** * Declarations are generated one after the other *)

Lemma collect_app {A : Type} (l1 l2 : list A) (f : A -> result (list jen.Code)) :
  collect (l1 ++ l2) f = (a <- collect l1 f ;; b <- collect l2 f ;; Ok (a ++ b)).
Proof.
  induction l1 as [|x l1 IH]; simpl.
  - now destruct (collect l2 f).
  - destruct (f x) as [a|p]; simpl; [|reflexivity]. rewrite IH.
    destruct (collect l1 f) as [b|p]; simpl; [|reflexivity].
    destruct (collect l2 f) as [d|p]; simpl; [|reflexivity].
    now rewrite app_assoc.
Qed.

(** X19.  The unit generated for declarations put one behind the other is
    the unit of the first ones followed by the unit of the others: what a
    declaration generates depends on no other declaration. *)
Theorem declarations_generate_in_sequence (o : GeneratorOpts)
  (d1 d2 : list ast.Decl) (imports : list ast.ImportSpec) (out1 out2 : jen.File) :
  generate o (fileOf d1 imports) = Ok out1 ->
  generate o (fileOf d2 imports) = Ok out2 ->
  exists out, generate o (fileOf (d1 ++ d2) imports) = Ok out
              /\ jen.items out = jen.items out1 ++ jen.items out2
              /\ outline out = outline out1 ++ outline out2.
Proof.
  rewrite !generate_items. intros H1 H2.
  apply bind_Ok in H1 as [s1 [Hs1 H1]]. apply bind_Ok in H2 as [s2 [Hs2 H2]].
  inversion H1; subst out1; inversion H2; subst out2; clear H1 H2.
  unfold fileItems, ast.typeSpecs in *. simpl in *.
  rewrite flat_map_app, collect_app, Hs1, Hs2. simpl.
  eexists. split; [reflexivity|]. split; [reflexivity|].
  unfold outline; simpl. apply members_app.
Qed.

Lemma declarations_generate_in_sequence_witness :
  exists out, generate userOpts (fileOf (ast.Decls userFile ++ ast.Decls localStructFile) [])
              = Ok out
              /\ jen.items out = jen.items userOutput ++ jen.items localOutput
              /\ outline out = outline userOutput ++ outline localOutput.
Proof.
  apply (declarations_generate_in_sequence userOpts (ast.Decls userFile)
           (ast.Decls localStructFile) [] userOutput localOutput); reflexivity.
Defined.

(** * The lookup on the tag literal and the entries of the tag *)













